(** * sudokugen/gen_sol.py: grid model, propagation, backtracking search,
      uniqueness verification and clue carving.

    The 9x9 numpy array is modelled by its row-major buffer, a [list Z] of
    length 81; [board[x, y]] is the element at index [9 * x + y].  Python
    sets of digits are duplicate-free lists; the order in which a set is
    iterated is a parameter [order] of the search functions.  The numpy
    random generator is an oracle [rnd : nat -> nat] together with the number
    of draws made so far.  The persistence stage [to_db] sees its queue
    through the outcome of each poll and acts on the database through the
    calls it makes; the float quotient [queue_size/2] of [main] is the
    double nearest to the exact quotient. *)

From Stdlib Require Import ZArith List Lia Permutation Bool Arith.
From stdpp Require Import base list.
Import ListNotations.

(** ** Constants (sudokugen/constants.py) *)

(** Modelled from the spec: constants.py is not part of the sources; the grid
    is "a 9x9 matrix", so [BOARD_DIM] is 9. *)
Definition BOARD_DIM : nat := 9.

(** Modelled from the spec: constants.py is not part of the sources; a
    candidate set is a "subset of {1..9}", so [COMPLETE_ROW] is the set of the
    nine digits. *)
Definition COMPLETE_ROW : list Z := [1; 2; 3; 4; 5; 6; 7; 8; 9]%Z.

(** Modelled from the spec: constants.py is not part of the sources; the
    blocks are the nine "3x3 sub-grids", numbered so that the diagonal ones
    are 0, 4 and 8 (docstring of [prefill_diagonals]). *)
Definition BLOCK_ARRAY (x y : nat) : nat := 3 * (x / 3) + y / 3.

(** ** Boards *)

Abbreviation board := (list Z).
Abbreviation coord := (nat * nat)%type.

Definition cell_index (x y : nat) : nat := BOARD_DIM * x + y.

(** [board[x, y]]; every access of the program has [x, y < 9]. *)
Definition get (b : board) (x y : nat) : Z := default 0%Z (b !! cell_index x y).

(** [board[x, y] = v] *)
Definition set_cell (b : board) (x y : nat) (v : Z) : board :=
  <[cell_index x y := v]> b.

(** The shape (9, 9) of the array. *)
Definition well_formed (b : board) : Prop := length b = BOARD_DIM * BOARD_DIM.

(** The coordinates in the order of the nested loops over
    [np.indices((9, 9))]: row by row. *)
Definition indices : list coord :=
  list_prod (seq 0 BOARD_DIM) (seq 0 BOARD_DIM).

Definition nonzero (v : Z) : bool := negb (v =? 0)%Z.

Definition count_nonzero (b : board) : nat := length (List.filter nonzero b).

Definition is_filled (b : board) : bool :=
  count_nonzero b =? BOARD_DIM ^ 2.

(** [squares()]: the cells of each block, and the block of each cell. *)
Definition squares : (nat -> list coord) * (coord -> nat) :=
  (fun g => List.filter (fun c => BLOCK_ARRAY (fst c) (snd c) =? g) indices,
   fun c => BLOCK_ARRAY (fst c) (snd c)).

(** [s - set(others)] and [s & t] on sets of digits. *)
Definition set_minus (s others : list Z) : list Z :=
  List.filter (fun v => negb (existsb (Z.eqb v) others)) s.

Definition set_and (s t : list Z) : list Z :=
  List.filter (fun v => existsb (Z.eqb v) t) s.

(** [board[x, :]] and [board[:, y]] *)
Definition row (b : board) (x : nat) : list Z :=
  map (fun j => get b x j) (seq 0 BOARD_DIM).

Definition column (b : board) (y : nat) : list Z :=
  map (fun i => get b i y) (seq 0 BOARD_DIM).

Definition numbers_in_square (b : board) (x y : nat) : list Z :=
  let '(groups, lookup) := squares in
  let g := lookup (x, y) in
  let cells_in_g := groups g in
  map (fun c => get b (fst c) (snd c)) cells_in_g.

Definition choices_from_square (b : board) (x y : nat) : list Z :=
  set_minus COMPLETE_ROW (numbers_in_square b x y).

Definition construct_candidates (b : board) (x y : nat) : list Z :=
  let possible_from_row := set_minus COMPLETE_ROW (row b x) in
  let possible_from_col := set_minus COMPLETE_ROW (column b y) in
  let possible_from_square := choices_from_square b x y in
  set_and (set_and possible_from_col possible_from_row) possible_from_square.

(** ** Errors *)

Inductive exn : Type :=
| PopFromEmptyList   (* IndexError of [stack.pop()] *)
| NoUnfilledCell.    (* IndexError("No unfilled cell remaining!") *)

Inductive result (A : Type) : Type :=
| Ok (a : A)
| Raise (e : exn).
Arguments Ok {A} a.
Arguments Raise {A} e.

(** ** Cell selection *)

(** [np.argwhere(board == 0)] *)
Definition zero_indices (b : board) : list coord :=
  List.filter (fun c => (get b (fst c) (snd c) =? 0)%Z) indices.

(** [np.random.randint(n)] for the raw draw [r]. *)
Definition randint (n r : nat) : nat := r mod n.

Definition get_unfilled_cell_rand (b : board) (r : nat) : result coord :=
  let zs := zero_indices b in
  if 0 <? length zs
  then Ok (nth (randint (length zs) r) zs (0, 0))
  else Raise NoUnfilledCell.

(** ** Propagation *)

(** The body of the double loop of [propagate_constraint] at one cell. *)
Definition propagate_cell (b : board) (c : coord) : board :=
  match construct_candidates b (fst c) (snd c) with
  | [v] => set_cell b (fst c) (snd c) v
  | _ => b
  end.

Definition propagate_constraint (b : board) : board :=
  fold_left propagate_cell indices b.

(** ** Search *)

(** The loop [for candidate in candidates: ...; stack.append(copied)]; the
    top of the stack is the head of the list. *)
Definition push_candidates (order : list Z -> list Z)
    (b : board) (x y : nat) (stack : list board) : list board :=
  fold_left
    (fun st candidate =>
       let copied := set_cell b x y candidate in
       let copied := propagate_constraint copied in
       copied :: st)
    (order (construct_candidates b x y)) stack.

Fixpoint backtrack_loop (fuel : nat) (order : list Z -> list Z)
    (rnd : nat -> nat) (stack : list board) (k : nat) : option (result board) :=
  match fuel with
  | O => None
  | S fuel' =>
      match stack with
      | [] => Some (Raise PopFromEmptyList)
      | b :: stack' =>
          if is_filled b then Some (Ok b)
          else
            match get_unfilled_cell_rand b (rnd k) with
            | Raise e => Some (Raise e)
            | Ok (x, y) =>
                backtrack_loop fuel' order rnd
                  (push_candidates order b x y stack') (S k)
            end
      end
  end.

Definition backtrack_iter (fuel : nat) (order : list Z -> list Z)
    (rnd : nat -> nat) (b : board) : option (result board) :=
  backtrack_loop fuel order rnd [b] 0.

(** ** Uniqueness verification *)

(** [np.all(np.equal(a, b))] on two arrays of the same shape. *)
Fixpoint grid_equal (a b : board) : bool :=
  match a, b with
  | [], [] => true
  | v :: a', w :: b' => (v =? w)%Z && grid_equal a' b'
  | _, _ => false
  end.

Definition board_in_solutions (b : board) (solutions : list board) : bool :=
  existsb (grid_equal b) solutions.

(** The loop of [solution_unique] from a given stack, list of solutions and
    position [k] in the random source; it also returns the position reached. *)
Fixpoint solution_unique_loop (fuel : nat) (order : list Z -> list Z)
    (rnd : nat -> nat) (stack solutions : list board) (k : nat)
  : option (result bool * nat) :=
  match fuel with
  | O => None
  | S fuel' =>
      match stack with
      | [] => Some (Ok (length solutions =? 1), k)
      | b :: stack' =>
          if is_filled b then
            let solutions' :=
              if board_in_solutions b solutions then solutions
              else solutions ++ [b] in
            if 1 <? length solutions' then Some (Ok false, k)
            else solution_unique_loop fuel' order rnd stack' solutions' k
          else
            match get_unfilled_cell_rand b (rnd k) with
            | Raise e => Some (Raise e, k)
            | Ok (x, y) =>
                solution_unique_loop fuel' order rnd
                  (push_candidates order b x y stack') solutions (S k)
            end
      end
  end.

Definition solution_unique (fuel : nat) (order : list Z -> list Z)
    (rnd : nat -> nat) (b : board) (k : nat) : option (result bool * nat) :=
  solution_unique_loop fuel order rnd [b] [] k.

(** The filled grids popped by the exhaustive traversal of [solution_unique]
    (the same stack discipline and the same draws, run until the stack is
    empty, without the registry of solutions). *)
Fixpoint filled_frames (fuel : nat) (order : list Z -> list Z)
    (rnd : nat -> nat) (stack : list board) (k : nat) : option (list board) :=
  match fuel with
  | O => None
  | S fuel' =>
      match stack with
      | [] => Some []
      | b :: stack' =>
          if is_filled b then
            match filled_frames fuel' order rnd stack' k with
            | Some fs => Some (b :: fs)
            | None => None
            end
          else
            match get_unfilled_cell_rand b (rnd k) with
            | Raise _ => None
            | Ok (x, y) =>
                filled_frames fuel' order rnd
                  (push_candidates order b x y stack') (S k)
            end
      end
  end.

Definition board_eq_dec : forall a b : board, {a = b} + {a <> b} :=
  List.list_eq_dec Z.eq_dec.

(** The number of distinct grids of a list. *)
Definition distinct_count (l : list board) : nat :=
  length (nodup board_eq_dec l).

(** ** Carving *)

(** The loop of [_create_puzzle]; [positions] lists the positions in the
    order in which [positions.pop()] yields them, [fuel] bounds each call of
    [solution_unique]. *)
Fixpoint create_puzzle_loop (fuel : nat) (order : list Z -> list Z)
    (rnd : nat -> nat) (positions : list nat) (b : board) (k : nat)
  : option (result board * nat) :=
  match positions with
  | [] => Some (Ok b, k)
  | position :: positions' =>
      let x := position mod BOARD_DIM in
      let y := position / BOARD_DIM in
      let old_val := get b x y in
      let b := set_cell b x y 0%Z in
      match solution_unique fuel order rnd b k with
      | None => None
      | Some (Raise e, k') => Some (Raise e, k')
      | Some (Ok unique, k') =>
          let b := if negb unique then set_cell b x y old_val else b in
          create_puzzle_loop fuel order rnd positions' b k'
      end
  end.

(** [_create_puzzle(board)], where [shuffled] is the list left by
    [np.random.shuffle(positions)]; [pop] takes its elements from the end. *)
Definition _create_puzzle (fuel : nat) (order : list Z -> list Z)
    (rnd : nat -> nat) (shuffled : list nat) (b : board) (k : nat)
  : option (result board * nat) :=
  create_puzzle_loop fuel order rnd (rev shuffled) b k.

(** ** Starting boards *)

(** [np.arange(1, 10)] *)
Definition arange_1_10 : list Z := [1; 2; 3; 4; 5; 6; 7; 8; 9]%Z.

(** The loop [for (x, y), k in zip(groups[n], arr): board[x, y] = k]. *)
Definition fill_block (cells : list coord) (arr : list Z) (b : board) : board :=
  fold_left
    (fun b ck => set_cell b (fst (fst ck)) (snd (fst ck)) (snd ck))
    (combine cells arr) b.

(** [prefill_diagonals(board)]; [cells_order] is the order in which the set
    [groups[n]] is iterated and [shuffled n] the array [arr] that
    [np.random.shuffle] leaves for the block [n]. *)
Definition prefill_diagonals (cells_order : list coord -> list coord)
    (shuffled : nat -> list Z) (b : board) : board :=
  let '(groups, _) := squares in
  fold_left
    (fun b n => fill_block (cells_order (groups n)) (shuffled n) b)
    [0; 4; 8] b.

(** [starting_board()]; the argument is [np.zeros((9, 9), dtype=int)]. *)
Definition starting_board (cells_order : list coord -> list coord)
    (shuffled : nat -> list Z) : board :=
  prefill_diagonals cells_order shuffled (repeat 0%Z (BOARD_DIM * BOARD_DIM)).

(** The cell lies in one of the blocks 0, 4 and 8. *)
Definition diagonal (x y : nat) : bool :=
  (BLOCK_ARRAY x y =? 0) || (BLOCK_ARRAY x y =? 4) || (BLOCK_ARRAY x y =? 8).

(** The cell that [_create_puzzle] visits for a position. *)
Definition position_cell (position : nat) : coord :=
  (position mod BOARD_DIM, position / BOARD_DIM).

(** ** Pipeline *)

(** [a / 2 ^ s] rounded to the nearest integer, a tie going to the even
    one. *)
Definition round_half_even (a s : N) : N :=
  let q := N.shiftr a s in
  let r := (a - N.shiftl q s)%N in
  match (2 * r ?= 2 ^ s)%N with
  | Lt => q
  | Gt => (q + 1)%N
  | Eq => if N.even q then q else (q + 1)%N
  end.

(** [math.floor(queue_size/2)] for an int [queue_size >= 0].  The quotient
    [queue_size/2] of two ints is a float, the double nearest to the exact
    quotient: it is exact while [queue_size] has at most 53 bits, and has
    the 53 leading bits of [queue_size], rounded with ties to even, above;
    [None] stands for the OverflowError of a quotient beyond the largest
    double. *)
Definition math_floor_half (queue_size : N) : option N :=
  let bits := N.size queue_size in
  if (bits <=? 53)%N then Some (queue_size / 2)%N
  else
    let s := (bits - 53)%N in
    let quotient := (round_half_even queue_size s * 2 ^ (s - 1))%N in
    if (quotient <? 2 ^ 1024)%N then Some quotient else None.

(** The batch size that [main(n_jobs, queue_size)] hands to [to_db];
    [n_jobs] is [None] or a number, and both [None] and 0 are false in
    [if n_jobs:].  Both branches take [math.floor(queue_size/2)]. *)
Definition db_batch_size (n_jobs : option nat) (queue_size : nat)
    : option nat :=
  match math_floor_half (N.of_nat queue_size) with
  | Some half =>
      Some match n_jobs with
           | Some (S n) => Nat.min (N.to_nat half) (S n)
           | _ => N.to_nat half
           end
  | None => None
  end.

(** An element of the queue of [to_db]: [(puzzle, solution, ct)]. *)
Abbreviation job := (list Z * list Z * nat)%type.

(** The calls that [to_db] makes on the database module and on its queue. *)
Inductive db_call : Type :=
| insert_solutions (boards : list board)
| insert_puzzles (pairs : list (board * board))
| task_done.

(** The local variables of [to_db], with the calls made so far; [None] is
    the [None] of Python. *)
Record to_db_state : Type := {
  results : list job;
  sentinel : option bool;
  calls : list db_call
}.

(** How an iteration of the loop of [to_db] ends. *)
Inductive to_db_step : Type :=
| Continue (st : to_db_state)
| Break (st : to_db_state)
| RaiseValueError (st : to_db_state).

(** [results = []; sentinel = True] *)
Definition to_db_start : to_db_state :=
  {| results := []; sentinel := Some true; calls := [] |}.

Definition puzzle_and_solution (j : job) : board * board :=
  (fst (fst j), snd (fst j)).

(** One iteration of the loop of [to_db]; [polled] is [None] when
    [input_q.empty()] holds and the job that [input_q.get()] returns
    otherwise.  Unpacking the [zip] of the starred [results] into three names
    raises ValueError when [results] is empty. *)
Definition to_db_iteration (batch : nat) (polled : option job)
    (st : to_db_state) : to_db_step :=
  let results' :=
    match polled with
    | Some board_and_sol => results st ++ [board_and_sol]
    | None => results st
    end in
  let sentinel_is_none :=
    match sentinel st with None => true | Some _ => false end in
  let st' := {| results := results'; sentinel := sentinel st;
                calls := calls st |} in
  if (length results' =? 0) && sentinel_is_none then Break st'
  else if (batch <=? length results') || sentinel_is_none then
    match results' with
    | [] => RaiseValueError st'
    | _ :: _ =>
        let puzzles := map (fun j : job => fst (fst j)) results' in
        let boards := map (fun j : job => snd (fst j)) results' in
        Continue {| results := [];
                    sentinel := sentinel st;
                    calls := calls st
                             ++ [insert_solutions boards;
                                 insert_puzzles (combine puzzles boards)]
                             ++ repeat task_done (length results') |}
    end
  else Continue st'.

(** The first iterations of [to_db(input_q, db_batch_size)], one for each
    element of [polls]. *)
Fixpoint to_db (batch : nat) (polls : list (option job)) (st : to_db_state)
  : to_db_step :=
  match polls with
  | [] => Continue st
  | polled :: polls' =>
      match to_db_iteration batch polled st with
      | Continue st' => to_db batch polls' st'
      | stop => stop
      end
  end.

(** The jobs taken from the queue, and what the calls made amount to. *)
Definition received (polls : list (option job)) : list job :=
  flat_map (fun o => match o with Some j => [j] | None => [] end) polls.

Definition stored_pairs (cs : list db_call) : list (board * board) :=
  flat_map (fun c => match c with insert_puzzles ps => ps | _ => [] end) cs.

Definition stored_solutions (cs : list db_call) : list board :=
  flat_map (fun c => match c with insert_solutions bs => bs | _ => [] end) cs.

Definition done_count (cs : list db_call) : nat :=
  length (List.filter (fun c => match c with task_done => true | _ => false end) cs).

(** What holds between the iterations of [to_db] once the jobs [taken] have
    been taken from the queue. *)
Definition to_db_invariant (batch : nat) (st : to_db_state) (taken : list job)
  : Prop :=
  sentinel st = Some true
  /\ stored_pairs (calls st) ++ map puzzle_and_solution (results st)
     = map puzzle_and_solution taken
  /\ stored_solutions (calls st) = map snd (stored_pairs (calls st))
  /\ (exists q, length (stored_pairs (calls st)) = batch * q)
  /\ length (results st) < batch
  /\ done_count (calls st) = length (stored_pairs (calls st)).

(** ** Sudoku properties *)

Definition row_cells (x : nat) : list coord := map (fun j => (x, j)) (seq 0 BOARD_DIM).
Definition column_cells (y : nat) : list coord := map (fun i => (i, y)) (seq 0 BOARD_DIM).
Definition block_cells (g : nat) : list coord := fst squares g.

(** The 27 groups: 9 rows, 9 columns, 9 blocks. *)
Definition all_groups : list (list coord) :=
  map row_cells (seq 0 BOARD_DIM) ++ map column_cells (seq 0 BOARD_DIM)
  ++ map block_cells (seq 0 BOARD_DIM).

Definition values (b : board) (g : list coord) : list Z :=
  map (fun c => get b (fst c) (snd c)) g.

(** Every row, column and block contains each of 1..9 exactly once. *)
Definition valid_solution (b : board) : Prop :=
  forall g, In g all_groups ->
  forall v, In v COMPLETE_ROW -> count_occ Z.eq_dec (values b g) v = 1.

(** Two cells share a row, a column or a block. *)
Definition same_group (c d : coord) : bool :=
  (fst c =? fst d) || (snd c =? snd d)
  || (BLOCK_ARRAY (fst c) (snd c) =? BLOCK_ARRAY (fst d) (snd d)).

Definition coord_eqb (c d : coord) : bool :=
  (fst c =? fst d) && (snd c =? snd d).

Definition in_range (v : Z) : bool := (0 <=? v)%Z && (v <=? 9)%Z.

(** No value is repeated among the filled cells of a row, column or block. *)
Definition no_conflict (b : board) : bool :=
  forallb (fun c =>
    forallb (fun d =>
      negb (same_group c d) || coord_eqb c d
      || negb (nonzero (get b (fst c) (snd c)))
      || negb (get b (fst c) (snd c) =? get b (fst d) (snd d))%Z)
    indices)
  indices.

(** A consistent partial grid: values in 0..9 and no conflict. *)
Definition consistent (b : board) : bool :=
  forallb in_range b && no_conflict b.

(** The same two conditions on the cells, and the invariant of the search:
    a 9x9 board whose cells are in range and free of conflicts. *)
Definition cells_in_range (b : board) : Prop :=
  forall x y, x < BOARD_DIM -> y < BOARD_DIM -> (0 <= get b x y <= 9)%Z.

Definition conflict_free (b : board) : Prop :=
  forall x y x' y',
    x < BOARD_DIM -> y < BOARD_DIM -> x' < BOARD_DIM -> y' < BOARD_DIM ->
    (x, y) <> (x', y') -> same_group (x, y) (x', y') = true ->
    get b x y <> 0%Z -> get b x y <> get b x' y'.

Record good (b : board) : Prop := {
  good_well_formed : well_formed b;
  good_range : cells_in_range b;
  good_free : conflict_free b
}.

(** The checks on the 27 groups that the proofs rely on: nine cells each,
    all on the board, any two of them sharing a row, a column or a block. *)
Definition group_ok (g : list coord) : bool :=
  (length g =? BOARD_DIM)
  && forallb (fun c => (fst c <? BOARD_DIM) && (snd c <? BOARD_DIM)) g
  && forallb (fun c => forallb (same_group c) g) g.

(** The number of empty cells, and the measure that decreases along the
    search: a frame with [z] empty cells weighs [10 ^ z]. *)
Definition zeros (b : board) : nat := length (zero_indices b).

Definition weight (stack : list board) : nat :=
  list_sum (map (fun b => 10 ^ zeros b) stack).

(** [b'] keeps every filled cell of [b]. *)
Definition extends (b b' : board) : Prop :=
  forall x y, x < BOARD_DIM -> y < BOARD_DIM ->
    get b x y <> 0%Z -> get b' x y = get b x y.

(** ** Dead ends *)

(** A plan against a frame of the search: the draw that selects the empty
    cell to expand, and a plan against each frame that the expansion pushes,
    one for each candidate of the cell in increasing order. *)
#[warnings="-register-all"]
Inductive plan := Expand (draw : nat) (replies : list plan).

Definition all2 {A B} (f : A -> B -> bool) : list A -> list B -> bool :=
  fix go l l' :=
    match l, l' with
    | [], [] => true
    | a :: l, b :: l' => f a b && go l l'
    | _, _ => false
    end.

(** The plan leaves no complete grid: the frame is not complete, and every
    frame pushed for the selected cell falls to its plan. *)
Fixpoint refutes (p : plan) (b : board) : bool :=
  match p with
  | Expand draw replies =>
      negb (is_filled b)
      && match get_unfilled_cell_rand b draw with
         | Ok (x, y) =>
             all2 (fun p v =>
                     refutes p (propagate_constraint (set_cell b x y v)))
               replies (construct_candidates b x y)
         | Raise _ => false
         end
  end.

(** The number of expansions of a plan. *)
Fixpoint plan_size (p : plan) : nat :=
  match p with
  | Expand _ replies => S (list_sum (map plan_size replies))
  end.

(** The draws [ds], made from the draw [k] on, take the frame [b] off the
    stack together with everything its expansion pushes. *)
Definition clears (order : list Z -> list Z) (b : board) (ds : list nat)
    : Prop :=
  forall rnd k fuel stack,
    (forall i, i < length ds -> rnd (k + i) = nth i ds 0) ->
    backtrack_loop (length ds + fuel) order rnd (b :: stack) k
    = backtrack_loop fuel order rnd stack (k + length ds).

(** ** Example grids *)

Definition solved_grid : board :=
  [1;2;3;4;5;6;7;8;9;
   4;5;6;7;8;9;1;2;3;
   7;8;9;1;2;3;4;5;6;
   2;3;4;5;6;7;8;9;1;
   5;6;7;8;9;1;2;3;4;
   8;9;1;2;3;4;5;6;7;
   3;4;5;6;7;8;9;1;2;
   6;7;8;9;1;2;3;4;5;
   9;1;2;3;4;5;6;7;8]%Z.

Definition ascending (l : list Z) : list Z := l.

(** A complete grid that is no Sudoku solution. *)
Definition all_ones : board := repeat 1%Z 81.

(** A consistent grid with two empty cells, (0, 1) and (3, 0), neither of
    which has a candidate: row 0 lacks the 1 and column 1 holds it, row 3
    lacks the 3 and column 0 holds it. *)
Definition stuck_grid : board :=
  [2;0;3;4;5;6;7;8;9;
   4;5;6;7;8;9;1;2;3;
   7;8;9;1;2;3;4;5;6;
   0;2;4;5;6;7;8;9;1;
   5;6;7;8;9;1;2;3;4;
   8;9;1;2;3;4;5;6;7;
   3;4;5;6;7;8;9;1;2;
   6;7;8;9;1;2;3;4;5;
   9;1;2;3;4;5;6;7;8]%Z.

(** A grid whose single empty cell, (0, 0), has no candidate: row 0 lacks
    the 2, column 0 lacks the 1. *)
Definition blocked_grid : board :=
  [0;1;3;4;5;6;7;8;9;
   4;5;6;7;8;9;1;2;3;
   7;8;9;1;2;3;4;5;6;
   2;3;4;5;6;7;8;9;1;
   5;6;7;8;9;1;2;3;4;
   8;9;1;2;3;4;5;6;7;
   3;4;5;6;7;8;9;1;2;
   6;7;8;9;1;2;3;4;5;
   9;1;2;3;4;5;6;7;8]%Z.

(** The grid of the example with the cells (0, 1) and (3, 0), both holding a
    2, cleared. *)
Definition two_cleared : board :=
  set_cell (set_cell solved_grid 0 1 0%Z) 3 0 0%Z.

(** The puzzle that [_create_puzzle] carves out of [solved_grid] when the
    shuffle leaves the positions in increasing order and every random draw
    is 0. *)
Definition carved_puzzle : board :=
  [1;2;3;4;5;6;7;0;0;
   0;0;0;0;0;9;0;0;0;
   7;8;9;1;2;3;0;0;0;
   0;3;0;5;0;0;8;0;0;
   5;6;0;8;9;1;2;3;0;
   0;0;1;0;0;4;5;6;0;
   3;4;0;6;7;0;9;1;0;
   6;7;0;0;0;2;3;4;0;
   9;1;0;3;0;5;6;7;0]%Z.

(** A second solution that keeps every clue of [carved_puzzle]: it differs
    from [solved_grid] in the columns 2 and 8 of the rows 6, 7 and 8. *)
Definition other_solution : board :=
  [1;2;3;4;5;6;7;8;9;
   4;5;6;7;8;9;1;2;3;
   7;8;9;1;2;3;4;5;6;
   2;3;4;5;6;7;8;9;1;
   5;6;7;8;9;1;2;3;4;
   8;9;1;2;3;4;5;6;7;
   3;4;2;6;7;8;9;1;5;
   6;7;5;9;1;2;3;4;8;
   9;1;8;3;4;5;6;7;2]%Z.

(** The grid that [backtrack_iter] returns on [carved_puzzle] when every
    random draw is 0. *)
Definition resolved_grid : board :=
  [1;2;3;4;8;6;7;5;9;
   4;5;6;7;2;9;1;8;3;
   7;8;9;1;5;3;4;2;6;
   2;9;1;5;3;7;8;6;4;
   5;6;4;8;9;1;2;3;7;
   8;3;7;2;6;4;5;9;1;
   3;4;2;6;7;8;9;1;5;
   6;7;5;9;1;2;3;4;8;
   9;1;8;3;4;5;6;7;2]%Z.

(** The check behind [extends]. *)
Definition keeps_clues (b b' : board) : bool :=
  forallb (fun c =>
    (get b (fst c) (snd c) =? 0)%Z
    || (get b' (fst c) (snd c) =? get b (fst c) (snd c))%Z) indices.

(** A board of [starting_board]: the arrays that the shuffles leave for the
    blocks 0, 4 and 8, the board, one of its completions, and a plan and
    draws under which the search finds none. *)
Definition seeded_shuffle (n : nat) : list Z :=
  match n with
  | 0 => [8; 4; 2; 3; 6; 5; 7; 1; 9]%Z
  | 4 => [9; 4; 6; 3; 8; 5; 7; 2; 1]%Z
  | _ => [4; 1; 8; 5; 7; 2; 3; 9; 6]%Z
  end.

Definition seeded_grid : board :=
  [8;4;2;0;0;0;0;0;0;
   3;6;5;0;0;0;0;0;0;
   7;1;9;0;0;0;0;0;0;
   0;0;0;9;4;6;0;0;0;
   0;0;0;3;8;5;0;0;0;
   0;0;0;7;2;1;0;0;0;
   0;0;0;0;0;0;4;1;8;
   0;0;0;0;0;0;5;7;2;
   0;0;0;0;0;0;3;9;6]%Z.

Definition seeded_solution : board :=
  [8;4;2;1;6;3;7;5;9;
   3;6;5;4;7;9;2;8;1;
   7;1;9;2;5;8;6;3;4;
   1;7;3;9;4;6;8;2;5;
   9;2;6;3;8;5;1;4;7;
   4;5;8;7;2;1;9;6;3;
   5;3;7;6;9;2;4;1;8;
   6;9;1;8;3;4;5;7;2;
   2;8;4;5;1;7;3;9;6]%Z.

Definition seeded_plan : plan :=
  Expand 0 [Expand 1 [Expand 1 [Expand 1 []; Expand 11 [Expand 1 []; Expand
  1 []]; Expand 11 [Expand 1 []; Expand 1 []]]; Expand 0 [Expand 42 [Expand
  9 [Expand 45 []]; Expand 8 []]; Expand 1 []; Expand 1 []]; Expand 0
  [Expand 48 [Expand 9 [Expand 34 [Expand 0 []]]; Expand 8 []]; Expand 1 [];
  Expand 1 []]]; Expand 12 [Expand 3 [Expand 5 [Expand 0 [Expand 0 []];
  Expand 0 [Expand 0 []]]; Expand 12 [Expand 11 [Expand 10 [Expand 7 []];
  Expand 10 [Expand 7 []]]; Expand 11 [Expand 10 [Expand 9 []]; Expand 10
  [Expand 9 []]]]]; Expand 6 [Expand 1 [Expand 42 [Expand 44 []; Expand 36
  [Expand 0 []; Expand 44 []]]]; Expand 1 [Expand 42 [Expand 44 []; Expand
  44 []]]]]; Expand 1 [Expand 48 [Expand 1 [Expand 32 []; Expand 32 []];
  Expand 0 [Expand 0 []]]; Expand 1 [Expand 4 [Expand 35 [Expand 0 [Expand
  43 []; Expand 40 []]; Expand 0 [Expand 0 []; Expand 31 []]]; Expand 0
  [Expand 44 []]]; Expand 34 [Expand 0 []; Expand 0 []]]; Expand 5 [Expand
  49 [Expand 0 [Expand 0 []]; Expand 0 [Expand 0 []]]; Expand 0 [Expand 31
  []]]]].

Definition seeded_draws : list nat :=
  [0; 1; 5; 0; 31; 49; 0; 0; 0; 0; 1; 34; 0; 0; 4; 0; 44; 35; 0; 31; 0; 0;
   40; 43; 48; 0; 0; 1; 32; 32; 12; 6; 1; 42; 44; 44; 1; 42; 36; 44; 0; 44;
   3; 12; 11; 10; 9; 10; 9; 11; 10; 7; 10; 7; 5; 0; 0; 0; 0; 1; 0; 1; 1; 48;
   8; 9; 34; 0; 0; 1; 1; 42; 8; 9; 45; 1; 11; 1; 1; 11; 1; 1; 1].

(** * Properties *)

(** ** Cells and coordinates *)

Lemma in_indices x y :
  In (x, y) indices <-> x < BOARD_DIM /\ y < BOARD_DIM.
Proof.
  unfold indices. rewrite in_prod_iff, !in_seq. lia.
Qed.

Lemma forall_indices (P : nat -> nat -> bool) :
  forallb (fun c => P (fst c) (snd c)) indices = true ->
  forall x y, x < BOARD_DIM -> y < BOARD_DIM -> P x y = true.
Proof.
  intros H x y Hx Hy. rewrite forallb_forall in H.
  apply (H (x, y)). apply in_indices. auto.
Qed.

Lemma cell_index_inj x y x' y' :
  y < BOARD_DIM -> y' < BOARD_DIM ->
  cell_index x y = cell_index x' y' -> x = x' /\ y = y'.
Proof. unfold cell_index, BOARD_DIM. lia. Qed.

Lemma cell_index_lt b x y :
  well_formed b -> x < BOARD_DIM -> y < BOARD_DIM -> cell_index x y < length b.
Proof. unfold well_formed, cell_index, BOARD_DIM. lia. Qed.

Lemma set_cell_well_formed b x y v :
  well_formed b -> well_formed (set_cell b x y v).
Proof. unfold well_formed, set_cell. rewrite length_insert. auto. Qed.

Lemma get_set_cell_eq b x y v :
  well_formed b -> x < BOARD_DIM -> y < BOARD_DIM ->
  get (set_cell b x y v) x y = v.
Proof.
  intros Hb Hx Hy. unfold get, set_cell.
  rewrite list_lookup_insert_eq; [reflexivity|].
  apply cell_index_lt; assumption.
Qed.

Lemma get_set_cell_ne b x y v x' y' :
  y < BOARD_DIM -> y' < BOARD_DIM -> (x, y) <> (x', y') ->
  get (set_cell b x y v) x' y' = get b x' y'.
Proof.
  intros Hy Hy' Hne. unfold get, set_cell.
  rewrite list_lookup_insert_ne; [reflexivity|].
  intros E. apply cell_index_inj in E; [|assumption..].
  destruct E; subst; contradiction.
Qed.

Lemma coord_eq_dec (c d : coord) : {c = d} + {c <> d}.
Proof. decide equality; apply Nat.eq_dec. Qed.

(** A write changes the cell written and no other. *)
Lemma get_set_cell b x y v x' y' :
  well_formed b -> x < BOARD_DIM -> y < BOARD_DIM -> y' < BOARD_DIM ->
  get (set_cell b x y v) x' y' =
  if coord_eq_dec (x, y) (x', y') then v else get b x' y'.
Proof.
  intros Hb Hx Hy Hy'. destruct (coord_eq_dec _ _) as [E|E].
  - inversion E; subst. apply get_set_cell_eq; assumption.
  - apply get_set_cell_ne; assumption.
Qed.

(** A well-formed board is the list of its 81 cells in scan order. *)
Lemma values_indices b : well_formed b -> values b indices = b.
Proof.
  unfold well_formed. intros H.
  do 81 (destruct b as [|? b]; [discriminate H|]).
  destruct b; [reflexivity|discriminate H].
Qed.

Lemma filter_map_length {A B} (f : B -> bool) (g : A -> B) (l : list A) :
  length (List.filter f (map g l)) = length (List.filter (fun a => f (g a)) l).
Proof.
  induction l as [|a l IH]; simpl; [reflexivity|].
  destruct (f (g a)); simpl; rewrite IH; reflexivity.
Qed.

Lemma filter_split_length {A} (f : A -> bool) (l : list A) :
  length (List.filter f l) + length (List.filter (fun a => negb (f a)) l)
  = length l.
Proof.
  induction l as [|a l IH]; simpl; [reflexivity|].
  destruct (f a); simpl; lia.
Qed.

(** Filled and empty cells add up to the 81 cells of the grid. *)
Lemma count_nonzero_zero_indices b :
  well_formed b ->
  count_nonzero b + length (zero_indices b) = BOARD_DIM * BOARD_DIM.
Proof.
  intros Hb. unfold count_nonzero, zero_indices.
  rewrite <- (values_indices b Hb) at 1. unfold values.
  rewrite filter_map_length.
  rewrite <- (filter_split_length
                (fun c => (get b (fst c) (snd c) =? 0)%Z) indices) at 1.
  unfold nonzero. rewrite Nat.add_comm.
  change (length indices) with (BOARD_DIM * BOARD_DIM). reflexivity.
Qed.

Lemma is_filled_zero_indices b :
  well_formed b -> (is_filled b = true <-> zero_indices b = []).
Proof.
  intros Hb. pose proof (count_nonzero_zero_indices b Hb) as H.
  unfold is_filled. rewrite Nat.eqb_eq.
  change (BOARD_DIM ^ 2) with 81.
  change (BOARD_DIM * BOARD_DIM) with 81 in H.
  split.
  - intros E. apply length_zero_iff_nil. lia.
  - intros E. rewrite E in H. simpl in H. lia.
Qed.

Lemma in_zero_indices b x y :
  In (x, y) (zero_indices b) <->
  x < BOARD_DIM /\ y < BOARD_DIM /\ get b x y = 0%Z.
Proof.
  unfold zero_indices. rewrite filter_In, in_indices. simpl.
  rewrite Z.eqb_eq. tauto.
Qed.

Lemma zero_indices_nil b :
  zero_indices b = [] <->
  forall x y, x < BOARD_DIM -> y < BOARD_DIM -> get b x y <> 0%Z.
Proof.
  split.
  - intros E x y Hx Hy H0.
    assert (In (x, y) (zero_indices b)) as Hin by (apply in_zero_indices; auto).
    rewrite E in Hin. destruct Hin.
  - intros H. destruct (zero_indices b) as [|[x y] l] eqn:E; [reflexivity|].
    assert (In (x, y) (zero_indices b)) as Hin by (rewrite E; left; reflexivity).
    apply in_zero_indices in Hin. destruct Hin as (Hx & Hy & H0).
    exfalso. exact (H x y Hx Hy H0).
Qed.

(** ** Candidate sets *)

Lemma complete_row_spec v : In v COMPLETE_ROW <-> (1 <= v <= 9)%Z.
Proof. unfold COMPLETE_ROW. simpl. lia. Qed.

Lemma in_set_minus v s others :
  In v (set_minus s others) <-> In v s /\ ~ In v others.
Proof.
  unfold set_minus. rewrite filter_In, negb_true_iff.
  rewrite <- not_true_iff_false, existsb_exists.
  split; intros [Hs Hn]; split; auto.
  - intros Hin. apply Hn. exists v. split; [assumption|apply Z.eqb_refl].
  - intros (w & Hw & E). apply Z.eqb_eq in E. subst. auto.
Qed.

Lemma in_set_and v s t : In v (set_and s t) <-> In v s /\ In v t.
Proof.
  unfold set_and. rewrite filter_In, existsb_exists.
  split; intros [Hs Ht]; split; auto.
  - destruct Ht as (w & Hw & E). apply Z.eqb_eq in E. subst. assumption.
  - exists v. split; [assumption|apply Z.eqb_refl].
Qed.

Lemma in_row b x v :
  In v (row b x) <-> exists j, j < BOARD_DIM /\ get b x j = v.
Proof.
  unfold row. rewrite in_map_iff. split.
  - intros (j & E & Hj). apply in_seq in Hj. exists j. split; [lia|assumption].
  - intros (j & Hj & E). exists j. split; [assumption|]. apply in_seq. lia.
Qed.

Lemma in_column b y v :
  In v (column b y) <-> exists i, i < BOARD_DIM /\ get b i y = v.
Proof.
  unfold column. rewrite in_map_iff. split.
  - intros (i & E & Hi). apply in_seq in Hi. exists i. split; [lia|assumption].
  - intros (i & Hi & E). exists i. split; [assumption|]. apply in_seq. lia.
Qed.

Lemma in_block_cells g x y :
  In (x, y) (block_cells g) <->
  x < BOARD_DIM /\ y < BOARD_DIM /\ BLOCK_ARRAY x y = g.
Proof.
  unfold block_cells, squares. cbn [fst].
  rewrite filter_In, in_indices, Nat.eqb_eq. cbn [fst snd]. tauto.
Qed.

Lemma in_numbers_in_square b x y v :
  In v (numbers_in_square b x y) <->
  exists x' y', x' < BOARD_DIM /\ y' < BOARD_DIM /\
                BLOCK_ARRAY x' y' = BLOCK_ARRAY x y /\ get b x' y' = v.
Proof.
  change (numbers_in_square b x y)
    with (values b (block_cells (BLOCK_ARRAY x y))).
  unfold values. rewrite in_map_iff. split.
  - intros ([x' y'] & E & Hin). apply (in_block_cells _ x' y') in Hin.
    exists x', y'. cbn [fst snd] in E. tauto.
  - intros (x' & y' & Hx & Hy & Hg & E). exists (x', y').
    split; [assumption|]. apply (in_block_cells _ x' y'). tauto.
Qed.

Lemma same_group_spec x y x' y' :
  same_group (x, y) (x', y') = true <->
  x = x' \/ y = y' \/ BLOCK_ARRAY x y = BLOCK_ARRAY x' y'.
Proof.
  unfold same_group. cbn [fst snd]. rewrite !orb_true_iff, !Nat.eqb_eq. tauto.
Qed.

(** A digit is a candidate of a cell when no cell of its row, column and
    block holds it. *)
Lemma in_candidates b x y v :
  x < BOARD_DIM -> y < BOARD_DIM ->
  (In v (construct_candidates b x y) <->
   In v COMPLETE_ROW /\
   forall x' y', x' < BOARD_DIM -> y' < BOARD_DIM ->
     same_group (x, y) (x', y') = true -> get b x' y' <> v).
Proof.
  intros Hx Hy. unfold construct_candidates, choices_from_square.
  rewrite !in_set_and, !in_set_minus, in_row, in_column, in_numbers_in_square.
  split.
  - intros (((Hc & Hcol) & _ & Hrow) & _ & Hsq). split; [assumption|].
    intros x' y' Hx' Hy' Hg E. apply same_group_spec in Hg.
    destruct Hg as [->|[->|Hg]].
    + apply Hrow. exists y'. auto.
    + apply Hcol. exists x'. auto.
    + apply Hsq. exists x', y'. auto.
  - intros (Hc & H). repeat split; try assumption.
    + intros (i & Hi & E). apply (H i y); auto.
      apply same_group_spec. auto.
    + intros (j & Hj & E). apply (H x j); auto.
      apply same_group_spec. auto.
    + intros (x' & y' & Hx' & Hy' & Hg & E). apply (H x' y'); auto.
      apply same_group_spec. auto.
Qed.

Lemma candidates_nonzero b x y v :
  In v (construct_candidates b x y) -> v <> 0%Z.
Proof.
  unfold construct_candidates. rewrite !in_set_and, !in_set_minus.
  intros (((Hc & _) & _) & _). apply complete_row_spec in Hc. lia.
Qed.

Lemma candidates_length b x y : length (construct_candidates b x y) <= 9.
Proof.
  unfold construct_candidates, set_and.
  etransitivity; [apply filter_length_le|].
  etransitivity; [apply filter_length_le|].
  unfold set_minus. etransitivity; [apply filter_length_le|].
  reflexivity.
Qed.

(** C8. Candidate-set monotonicity: writing a digit into an empty cell
    never adds a candidate to any cell, and clearing a cell never removes
    one (the cell [(x', y')] need not even differ from [(x, y)]). *)
Theorem candidates_monotone b x y v x' y' :
  well_formed b ->
  x < BOARD_DIM -> y < BOARD_DIM -> x' < BOARD_DIM -> y' < BOARD_DIM ->
  (get b x y = 0%Z -> In v COMPLETE_ROW ->
   incl (construct_candidates (set_cell b x y v) x' y')
        (construct_candidates b x' y'))
  /\ (get b x y <> 0%Z ->
      incl (construct_candidates b x' y')
           (construct_candidates (set_cell b x y 0%Z) x' y')).
Proof.
  intros Hb Hx Hy Hx' Hy'. split.
  - intros H0 Hv w Hw. apply in_candidates in Hw; [|assumption..].
    destruct Hw as (Hc & H). apply in_candidates; [assumption..|].
    split; [assumption|]. intros p q Hp Hq Hg E.
    specialize (H p q Hp Hq Hg).
    rewrite get_set_cell in H by assumption.
    destruct (coord_eq_dec (x, y) (p, q)) as [Ec|Ec]; [|auto].
    inversion Ec; subst p q. apply complete_row_spec in Hc. lia.
  - intros _ w Hw. apply in_candidates in Hw; [|assumption..].
    destruct Hw as (Hc & H). apply in_candidates; [assumption..|].
    split; [assumption|]. intros p q Hp Hq Hg E.
    rewrite get_set_cell in E by assumption.
    destruct (coord_eq_dec (x, y) (p, q)) as [Ec|Ec].
    + apply complete_row_spec in Hc. lia.
    + exact (H p q Hp Hq Hg E).
Qed.

Lemma candidates_monotone_witness :
  incl (construct_candidates (set_cell two_cleared 0 1 2%Z) 3 0)
       (construct_candidates two_cleared 3 0)
  /\ incl (construct_candidates solved_grid 3 0)
          (construct_candidates (set_cell solved_grid 0 1 0%Z) 3 0).
Proof.
  split.
  - refine (proj1 (candidates_monotone two_cleared 0 1 2%Z 3 0 _ _ _ _ _) _ _);
      try reflexivity; try (unfold BOARD_DIM; lia).
    apply complete_row_spec. lia.
  - refine (proj2 (candidates_monotone solved_grid 0 1 2%Z 3 0 _ _ _ _ _) _);
      try reflexivity; try (unfold BOARD_DIM; lia).
    discriminate.
Defined.

(** ** Cell selection *)

Lemma get_unfilled_cell_rand_cases b r :
  match get_unfilled_cell_rand b r with
  | Ok (x, y) => In (x, y) (zero_indices b)
  | Raise e => e = NoUnfilledCell /\ zero_indices b = []
  end.
Proof.
  unfold get_unfilled_cell_rand.
  destruct (zero_indices b) as [|c zs] eqn:E.
  - split; reflexivity.
  - change (0 <? length (c :: zs)) with true. cbv iota.
    assert (In (nth (randint (length (c :: zs)) r) (c :: zs) (0, 0)) (c :: zs))
      as Hin.
    { apply nth_In. unfold randint. apply Nat.mod_upper_bound. discriminate. }
    destruct (nth _ _ _) as [x y]. assumption.
Qed.

(** C7. [get_unfilled_cell_rand] raises its IndexError exactly on the
    complete grids, the grids without an empty cell; on any other grid it
    returns the coordinates of one of the empty cells (the function reads
    the board and returns nothing but the coordinates). *)
Theorem get_unfilled_cell_rand_spec b r :
  well_formed b ->
  (get_unfilled_cell_rand b r = Raise NoUnfilledCell <-> is_filled b = true)
  /\ (is_filled b = true <->
      forall x y, x < BOARD_DIM -> y < BOARD_DIM -> get b x y <> 0%Z)
  /\ (is_filled b = false ->
      exists x y, get_unfilled_cell_rand b r = Ok (x, y)
                  /\ In (x, y) (zero_indices b)
                  /\ x < BOARD_DIM /\ y < BOARD_DIM /\ get b x y = 0%Z).
Proof.
  intros Hb. pose proof (is_filled_zero_indices b Hb) as Hf.
  pose proof (get_unfilled_cell_rand_cases b r) as Hc.
  split; [|split].
  - destruct (get_unfilled_cell_rand b r) as [[x y]|e].
    + split; [discriminate|]. intros H. apply Hf in H.
      rewrite H in Hc. destruct Hc.
    + destruct Hc as [-> Hc]. split; intros _; [apply Hf; assumption|reflexivity].
  - etransitivity; [exact Hf|apply zero_indices_nil].
  - intros Hnf. destruct (get_unfilled_cell_rand b r) as [[x y]|e].
    + exists x, y. split; [reflexivity|]. split; [assumption|].
      apply in_zero_indices. assumption.
    + destruct Hc as [_ Hc]. apply Hf in Hc. congruence.
Qed.

Lemma get_unfilled_cell_rand_spec_witness :
  exists x y, get_unfilled_cell_rand two_cleared 5 = Ok (x, y)
              /\ In (x, y) (zero_indices two_cleared)
              /\ x < BOARD_DIM /\ y < BOARD_DIM /\ get two_cleared x y = 0%Z.
Proof.
  apply (proj2 (proj2 (get_unfilled_cell_rand_spec two_cleared 5 eq_refl))).
  reflexivity.
Defined.

(** The cell returned by [get_unfilled_cell_rand] is an empty cell. *)
Lemma get_unfilled_cell_rand_ok b r x y :
  get_unfilled_cell_rand b r = Ok (x, y) -> In (x, y) (zero_indices b).
Proof.
  intros H. pose proof (get_unfilled_cell_rand_cases b r) as Hc.
  rewrite H in Hc. assumption.
Qed.

Lemma get_unfilled_cell_rand_not_filled b r :
  well_formed b -> is_filled b = false ->
  exists x y, get_unfilled_cell_rand b r = Ok (x, y).
Proof.
  intros Hb Hf. pose proof (get_unfilled_cell_rand_cases b r) as Hc.
  destruct (get_unfilled_cell_rand b r) as [[x y]|e]; [eauto|].
  destruct Hc as [_ Hc]. apply (is_filled_zero_indices b Hb) in Hc. congruence.
Qed.

(** ** Propagation *)

Lemma fold_left_fixed {A B} (f : A -> B -> A) (l : list B) (a : A) :
  (forall c, In c l -> f a c = a) -> fold_left f l a = a.
Proof.
  induction l as [|c l IH]; intros H; simpl; [reflexivity|].
  rewrite (H c) by (left; reflexivity).
  apply IH. intros d Hd. apply H. right. assumption.
Qed.

Lemma propagate_cell_no_single b c :
  length (construct_candidates b (fst c) (snd c)) <> 1 ->
  propagate_cell b c = b.
Proof.
  unfold propagate_cell.
  destruct (construct_candidates b (fst c) (snd c)) as [|v [|w l]];
    simpl; congruence.
Qed.

(** On a grid none of whose 81 cells, the filled ones included, has a
    candidate set of exactly one member, a propagation pass changes nothing,
    and neither does a second one. *)
Theorem propagate_constraint_idempotent b :
  (forall x y, x < BOARD_DIM -> y < BOARD_DIM ->
     length (construct_candidates b x y) <> 1) ->
  propagate_constraint (propagate_constraint b) = propagate_constraint b.
Proof.
  intros H.
  assert (propagate_constraint b = b) as E.
  { unfold propagate_constraint. apply fold_left_fixed.
    intros [x y] Hc. apply in_indices in Hc.
    apply propagate_cell_no_single. apply H; tauto. }
  rewrite !E. reflexivity.
Qed.

Lemma propagate_constraint_idempotent_witness :
  propagate_constraint (propagate_constraint solved_grid)
  = propagate_constraint solved_grid.
Proof.
  apply (propagate_constraint_idempotent solved_grid).
  intros x y Hx Hy. apply Nat.eqb_neq, negb_true_iff.
  apply (forall_indices
           (fun x y => negb (length (construct_candidates solved_grid x y) =? 1)));
    [vm_compute; reflexivity|assumption..].
Defined.

(** C5 (the code departs from the claim). [stuck_grid] is a consistent grid
    whose empty cells, (0, 1) and (3, 0), have no candidate at all, so no
    cell is left with a single candidate to fill.  The pass nevertheless
    rewrites the filled cells (0, 0) and (3, 1), whose candidate sets have
    one member, and yields [two_cleared]; a second pass rewrites them again
    and yields [stuck_grid]: twice is not once.  The search hands this very
    grid to the pass when the cell (8, 8) of the grid with that cell cleared
    too is drawn. *)
Theorem propagate_constraint_not_idempotent :
  well_formed stuck_grid
  /\ consistent stuck_grid = true
  /\ zero_indices stuck_grid = [(0, 1); (3, 0)]
  /\ construct_candidates stuck_grid 0 1 = []
  /\ construct_candidates stuck_grid 3 0 = []
  /\ get stuck_grid 0 0 = 2%Z
  /\ construct_candidates stuck_grid 0 0 = [1%Z]
  /\ get stuck_grid 3 1 = 2%Z
  /\ construct_candidates (set_cell stuck_grid 0 0 1%Z) 3 1 = [3%Z]
  /\ propagate_constraint stuck_grid = two_cleared
  /\ propagate_constraint (propagate_constraint stuck_grid) = stuck_grid
  /\ propagate_constraint (propagate_constraint stuck_grid)
     <> propagate_constraint stuck_grid
  /\ get_unfilled_cell_rand (set_cell stuck_grid 8 8 0%Z) 2 = Ok (8, 8)
  /\ push_candidates ascending (set_cell stuck_grid 8 8 0%Z) 8 8 []
     = [propagate_constraint stuck_grid].
Proof.
  assert (propagate_constraint stuck_grid = two_cleared) as E1
    by (vm_compute; reflexivity).
  assert (propagate_constraint two_cleared = stuck_grid) as E2
    by (vm_compute; reflexivity).
  repeat match goal with |- _ /\ _ => split end;
    try (vm_compute; reflexivity).
  rewrite E1, E2. discriminate.
Qed.

(** C4 (the code departs from the claim). The first cell that
    [propagate_constraint] visits on [two_cleared] is the filled cell (0, 0),
    holding a 1; its row, column and block all lack only the digit 2, so the
    pass replaces the 1 by a 2.  The search calls the pass on this very grid
    when the cell (8, 8) of a grid with three cleared cells is drawn. *)
Theorem propagate_constraint_overwrites_filled_cell :
  well_formed two_cleared
  /\ consistent two_cleared = true
  /\ hd_error indices = Some (0, 0)
  /\ get two_cleared 0 0 = 1%Z
  /\ construct_candidates two_cleared 0 0 = [2%Z]
  /\ get (propagate_constraint two_cleared) 0 0 = 2%Z
  /\ get_unfilled_cell_rand (set_cell two_cleared 8 8 0%Z) 2 = Ok (8, 8)
  /\ push_candidates ascending (set_cell two_cleared 8 8 0%Z) 8 8 []
     = [propagate_constraint two_cleared].
Proof. vm_compute. repeat split; reflexivity. Qed.

(** ** Consistent grids *)

Lemma same_group_sym c d : same_group c d = same_group d c.
Proof.
  unfold same_group.
  rewrite (Nat.eqb_sym (fst c)), (Nat.eqb_sym (snd c)),
    (Nat.eqb_sym (BLOCK_ARRAY (fst c) (snd c))).
  reflexivity.
Qed.

Lemma get_in_range b x y :
  forallb in_range b = true -> (0 <= get b x y <= 9)%Z.
Proof.
  intros H. unfold get. destruct (b !! cell_index x y) as [v|] eqn:E; simpl.
  - rewrite forallb_forall in H.
    assert (In v b) as Hin.
    { apply list_elem_of_In, list_elem_of_lookup. exists (cell_index x y).
      assumption. }
    apply H in Hin. unfold in_range in Hin.
    apply andb_true_iff in Hin. lia.
  - lia.
Qed.

(** The boolean check [consistent] establishes the invariant. *)
Lemma consistent_good b : well_formed b -> consistent b = true -> good b.
Proof.
  intros Hb H. unfold consistent in H. apply andb_true_iff in H.
  destruct H as [Hr Hc]. split; [assumption| |].
  - intros x y _ _. apply get_in_range. assumption.
  - intros x y x' y' Hx Hy Hx' Hy' Hne Hg Hnz E.
    unfold no_conflict in Hc. rewrite forallb_forall in Hc.
    specialize (Hc (x, y) (proj2 (in_indices x y) (conj Hx Hy))).
    rewrite forallb_forall in Hc.
    specialize (Hc (x', y') (proj2 (in_indices x' y') (conj Hx' Hy'))).
    cbn [fst snd] in Hc. rewrite Hg in Hc. cbn [negb orb] in Hc.
    rewrite !orb_true_iff in Hc. destruct Hc as [[Hc|Hc]|Hc].
    + unfold coord_eqb in Hc. cbn [fst snd] in Hc.
      apply andb_true_iff in Hc. rewrite !Nat.eqb_eq in Hc.
      destruct Hc; subst. contradiction.
    + unfold nonzero in Hc. rewrite negb_involutive in Hc.
      apply Z.eqb_eq in Hc. contradiction.
    + apply negb_true_iff, Z.eqb_neq in Hc. contradiction.
Qed.

(** Writing a candidate of a cell into it keeps the invariant, whatever the
    cell held. *)
Lemma good_write b x y v :
  good b -> x < BOARD_DIM -> y < BOARD_DIM ->
  In v (construct_candidates b x y) -> good (set_cell b x y v).
Proof.
  intros [Hb Hr Hc] Hx Hy Hv.
  apply in_candidates in Hv; [|assumption..]. destruct Hv as [Hv Hp].
  apply complete_row_spec in Hv.
  split.
  - apply set_cell_well_formed. assumption.
  - intros p q Hp' Hq. rewrite get_set_cell by assumption.
    destruct (coord_eq_dec _ _); [lia|auto].
  - intros p q p' q' Hp1 Hq1 Hp2 Hq2 Hne Hg.
    rewrite !get_set_cell by assumption.
    destruct (coord_eq_dec (x, y) (p, q)) as [E1|E1];
      destruct (coord_eq_dec (x, y) (p', q')) as [E2|E2].
    + congruence.
    + intros _ E. inversion E1; subst p q.
      exact (Hp p' q' Hp2 Hq2 Hg (eq_sym E)).
    + intros _ E. inversion E2; subst p' q'.
      rewrite same_group_sym in Hg. exact (Hp p q Hp1 Hq1 Hg E).
    + apply Hc; assumption.
Qed.

Lemma good_propagate_cell b c :
  good b -> In c indices -> good (propagate_cell b c).
Proof.
  intros Hg Hc. destruct c as [x y]. apply in_indices in Hc.
  unfold propagate_cell. cbn [fst snd].
  destruct (construct_candidates b x y) as [|v [|w l]] eqn:E; try assumption.
  apply good_write; try tauto. rewrite E. left. reflexivity.
Qed.

Lemma fold_left_invariant {A B} (P : A -> Prop) (f : A -> B -> A) (l : list B) :
  (forall a c, P a -> In c l -> P (f a c)) ->
  forall a, P a -> P (fold_left f l a).
Proof.
  induction l as [|c l IH]; intros H a Ha; simpl; [assumption|].
  apply IH.
  - intros a' c' Ha' Hc'. apply H; [assumption|right; assumption].
  - apply H; [assumption|left; reflexivity].
Qed.

Lemma good_propagate_constraint b : good b -> good (propagate_constraint b).
Proof.
  unfold propagate_constraint. apply fold_left_invariant.
  intros a c Ha Hc. apply good_propagate_cell; assumption.
Qed.

(** Every frame pushed by the loop over the candidates satisfies a property
    that holds of every child. *)
Lemma push_candidates_Forall (P : board -> Prop) order b x y stack :
  (forall v, In v (order (construct_candidates b x y)) ->
             P (propagate_constraint (set_cell b x y v))) ->
  Forall P stack -> Forall P (push_candidates order b x y stack).
Proof.
  unfold push_candidates.
  generalize (order (construct_candidates b x y)) as l.
  intros l. revert stack.
  induction l as [|v l IH]; intros stack H Hs; simpl; [assumption|].
  apply IH.
  - intros w Hw. apply H. right. assumption.
  - constructor; [|assumption]. apply H. left. reflexivity.
Qed.

(** ** The groups *)

Lemma all_groups_ok : forallb group_ok all_groups = true.
Proof. vm_compute. reflexivity. Qed.

Lemma all_groups_NoDup : Forall (@NoDup coord) all_groups.
Proof. apply (bool_decide_unpack _). vm_compute. exact I. Qed.

Lemma group_facts g :
  In g all_groups ->
  length g = BOARD_DIM /\ List.NoDup g
  /\ (forall c, In c g -> fst c < BOARD_DIM /\ snd c < BOARD_DIM)
  /\ (forall c d, In c g -> In d g -> same_group c d = true).
Proof.
  intros Hg. pose proof all_groups_ok as H. rewrite forallb_forall in H.
  specialize (H g Hg). unfold group_ok in H.
  rewrite !andb_true_iff in H. destruct H as [[Hl Hr] Hs].
  pose proof all_groups_NoDup as Hn. rewrite Forall_forall in Hn.
  repeat split.
  - apply Nat.eqb_eq. assumption.
  - apply NoDup_ListNoDup, Hn, list_elem_of_In. assumption.
  - rewrite forallb_forall in Hr. specialize (Hr c H).
    apply andb_true_iff in Hr. apply Nat.ltb_lt. tauto.
  - rewrite forallb_forall in Hr. specialize (Hr c H).
    apply andb_true_iff in Hr. apply Nat.ltb_lt. tauto.
  - intros c d Hc Hd. rewrite forallb_forall in Hs. specialize (Hs c Hc).
    rewrite forallb_forall in Hs. exact (Hs d Hd).
Qed.

(** ** Complete consistent grids are solutions *)

Lemma NoDup_map_pairwise {A B} (f : A -> B) (l : list A) :
  List.NoDup l ->
  (forall c d, In c l -> In d l -> c <> d -> f c <> f d) ->
  List.NoDup (map f l).
Proof.
  induction 1 as [|a l Ha Hl IH]; intros H; simpl; constructor.
  - rewrite in_map_iff. intros (d & E & Hd).
    apply (H a d); [left; reflexivity|right; assumption| |congruence].
    intros ->. contradiction.
  - apply IH. intros c d Hc Hd. apply H; right; assumption.
Qed.

Lemma good_filled_valid b : good b -> is_filled b = true -> valid_solution b.
Proof.
  intros [Hb Hr Hc] Hf g Hg v Hv.
  destruct (group_facts g Hg) as (Hl & Hn & Hin & Hs).
  assert (forall x y, x < BOARD_DIM -> y < BOARD_DIM -> get b x y <> 0%Z)
    as Hnz by (apply zero_indices_nil, is_filled_zero_indices; assumption).
  assert (List.NoDup (values b g)) as Hnd.
  { unfold values. apply NoDup_map_pairwise; [assumption|].
    intros [x y] [x' y'] Hc1 Hc2 Hne. cbn [fst snd].
    pose proof (Hin _ Hc1) as [? ?]. pose proof (Hin _ Hc2) as [? ?].
    apply Hc; auto. }
  assert (incl (values b g) COMPLETE_ROW) as Hi.
  { intros w Hw. unfold values in Hw. apply in_map_iff in Hw.
    destruct Hw as ([x y] & E & Hxy). pose proof (Hin _ Hxy) as [Hx Hy].
    cbn [fst snd] in *. apply complete_row_spec.
    specialize (Hr x y Hx Hy). specialize (Hnz x y Hx Hy). lia. }
  assert (incl COMPLETE_ROW (values b g)) as Hi'.
  { apply List.NoDup_length_incl; [assumption| |assumption].
    unfold values. rewrite List.length_map, Hl. reflexivity. }
  apply (proj1 (List.NoDup_count_occ' Z.eq_dec (values b g)) Hnd).
  apply Hi'. assumption.
Qed.

(** ** The number of empty cells *)

Lemma filter_length_le_pointwise {A} (f g : A -> bool) (l : list A) :
  (forall a, In a l -> f a = true -> g a = true) ->
  length (List.filter f l) <= length (List.filter g l).
Proof.
  induction l as [|a l IH]; intros H; simpl; [reflexivity|].
  assert (length (List.filter f l) <= length (List.filter g l)) as IH'
      by (apply IH; intros; apply H; [right|]; assumption).
  destruct (f a) eqn:Ef.
  - rewrite (H a (or_introl eq_refl) Ef). simpl. lia.
  - destruct (g a); simpl; lia.
Qed.

Lemma filter_length_lt_pointwise {A} (f g : A -> bool) (l : list A) a :
  (forall a, In a l -> f a = true -> g a = true) ->
  In a l -> f a = false -> g a = true ->
  length (List.filter f l) < length (List.filter g l).
Proof.
  induction l as [|c l IH]; intros H Ha Hf Hg; [destruct Ha|].
  assert (length (List.filter f l) <= length (List.filter g l)) as Hle
      by (apply filter_length_le_pointwise; intros; apply H; [right|];
          assumption).
  simpl. destruct Ha as [->|Ha].
  - rewrite Hf, Hg. simpl. lia.
  - assert (length (List.filter f l) < length (List.filter g l)) as Hlt
        by (apply IH; try assumption; intros; apply H; [right|]; assumption).
    destruct (f c) eqn:Ef.
    + rewrite (H c (or_introl eq_refl) Ef). simpl. lia.
    + destruct (g c); simpl; lia.
Qed.

Lemma zeros_write_le b x y v :
  well_formed b -> x < BOARD_DIM -> y < BOARD_DIM -> v <> 0%Z ->
  zeros (set_cell b x y v) <= zeros b.
Proof.
  intros Hb Hx Hy Hv. unfold zeros, zero_indices.
  apply filter_length_le_pointwise. intros [p q] Hin. cbn [fst snd].
  apply in_indices in Hin. rewrite get_set_cell by tauto.
  destruct (coord_eq_dec _ _); [|auto].
  intros E. apply Z.eqb_eq in E. contradiction.
Qed.

Lemma zeros_write_lt b x y v :
  well_formed b -> In (x, y) (zero_indices b) -> v <> 0%Z ->
  zeros (set_cell b x y v) < zeros b.
Proof.
  intros Hb Hz Hv. pose proof Hz as Hz'. apply in_zero_indices in Hz'.
  destruct Hz' as (Hx & Hy & H0).
  unfold zeros, zero_indices.
  apply filter_length_lt_pointwise with (a := (x, y)).
  - intros [p q] Hin. cbn [fst snd].
    apply in_indices in Hin. rewrite get_set_cell by tauto.
    destruct (coord_eq_dec _ _); [|auto].
    intros E. apply Z.eqb_eq in E. contradiction.
  - apply in_indices. auto.
  - cbn [fst snd]. rewrite get_set_cell_eq by assumption.
    apply Z.eqb_neq. assumption.
  - cbn [fst snd]. apply Z.eqb_eq. assumption.
Qed.

Lemma zeros_propagate_cell b c :
  well_formed b -> In c indices ->
  well_formed (propagate_cell b c) /\ zeros (propagate_cell b c) <= zeros b.
Proof.
  intros Hb Hc. destruct c as [x y]. apply in_indices in Hc.
  unfold propagate_cell. cbn [fst snd].
  destruct (construct_candidates b x y) as [|v [|w l]] eqn:E; auto.
  split; [apply set_cell_well_formed; assumption|].
  apply zeros_write_le; try tauto.
  apply (candidates_nonzero b x y). rewrite E. left. reflexivity.
Qed.

(** A propagation pass never empties a cell. *)
Lemma zeros_propagate_constraint b :
  well_formed b ->
  well_formed (propagate_constraint b)
  /\ zeros (propagate_constraint b) <= zeros b.
Proof.
  intros Hb. unfold propagate_constraint.
  apply (fold_left_invariant
           (fun a => well_formed a /\ zeros a <= zeros b)); [|auto].
  intros a c [Ha Hle] Hc.
  destruct (zeros_propagate_cell a c Ha Hc). split; [assumption|lia].
Qed.

Lemma weight_cons b stack : weight (b :: stack) = 10 ^ zeros b + weight stack.
Proof. reflexivity. Qed.

Lemma pow10_pos n : 0 < 10 ^ n.
Proof. apply Nat.neq_0_lt_0, Nat.pow_nonzero. discriminate. Qed.

Lemma weight_fold_push (child : Z -> board) z (l : list Z) :
  (forall v, In v l -> zeros (child v) <= z) ->
  forall stack,
    weight (fold_left (fun st v => child v :: st) l stack)
    <= weight stack + length l * 10 ^ z.
Proof.
  induction l as [|v l IH]; intros H stack; cbn [fold_left length]; [lia|].
  etransitivity; [apply IH; intros; apply H; right; assumption|].
  rewrite weight_cons.
  assert (10 ^ zeros (child v) <= 10 ^ z) as Hp.
  { apply Nat.pow_le_mono_r; [discriminate|]. apply H. left. reflexivity. }
  lia.
Qed.

Section Order.

Variable order : list Z -> list Z.

(** Iterating over a set visits each of its members once. *)
Hypothesis order_perm : forall l, Permutation (order l) l.

Lemma push_candidates_well_formed b x y stack :
  well_formed b -> In (x, y) (zero_indices b) ->
  Forall well_formed stack ->
  Forall well_formed (push_candidates order b x y stack).
Proof.
  intros Hb Hz Hs. apply push_candidates_Forall; [|assumption].
  intros v _. apply zeros_propagate_constraint, set_cell_well_formed.
  assumption.
Qed.

(** Expanding a frame replaces it by at most nine frames, each with fewer
    empty cells. *)
Lemma weight_push_candidates b x y stack :
  well_formed b -> In (x, y) (zero_indices b) ->
  weight (push_candidates order b x y stack) < weight (b :: stack).
Proof.
  intros Hb Hz. rewrite weight_cons. unfold push_candidates.
  destruct (zeros b) as [|z] eqn:Ez.
  { unfold zeros in Ez. apply length_zero_iff_nil in Ez.
    rewrite Ez in Hz. destruct Hz. }
  pose proof (weight_fold_push
                (fun v => propagate_constraint (set_cell b x y v)) z
                (order (construct_candidates b x y))) as H.
  cbv beta in H. eapply Nat.le_lt_trans; [apply H|].
  - intros v Hv.
    apply (Permutation_in _ (order_perm _)) in Hv.
    apply candidates_nonzero in Hv.
    pose proof (zeros_write_lt b x y v Hb Hz Hv) as Hlt.
    destruct (zeros_propagate_constraint (set_cell b x y v)) as [_ Hle].
    { apply set_cell_well_formed. assumption. }
    lia.
  - rewrite (Permutation_length (order_perm _)).
    pose proof (candidates_length b x y) as Hl.
    pose proof (pow10_pos z) as Hp.
    rewrite Nat.pow_succ_r'.
    assert (length (construct_candidates b x y) * 10 ^ z <= 9 * 10 ^ z)
      by (apply Nat.mul_le_mono_r; assumption).
    lia.
Qed.

Lemma order_nil : order [] = [].
Proof. apply Permutation_nil. symmetry. apply order_perm. Qed.

End Order.

(** ** The search keeps the invariant *)

Section Search.

Variable order : list Z -> list Z.

(** Iterating over a set visits each of its members once. *)
Hypothesis order_perm : forall l, Permutation (order l) l.

Lemma push_candidates_good b x y stack :
  good b -> In (x, y) (zero_indices b) -> Forall good stack ->
  Forall good (push_candidates order b x y stack).
Proof.
  intros Hg Hz Hs. apply in_zero_indices in Hz.
  apply push_candidates_Forall; [|assumption].
  intros v Hv. apply good_propagate_constraint, good_write; try tauto.
  apply (Permutation_in _ (order_perm _)). assumption.
Qed.

Variable rnd : nat -> nat.

(** A grid returned by the loop has passed the test [is_filled]. *)
Lemma backtrack_loop_filled fuel :
  forall stack k b',
    Forall well_formed stack ->
    backtrack_loop fuel order rnd stack k = Some (Ok b') ->
    well_formed b' /\ is_filled b' = true.
Proof.
  induction fuel as [|fuel IH]; intros stack k b' Hs H; [discriminate|].
  cbn [backtrack_loop] in H.
  destruct stack as [|b stack]; [discriminate|].
  inversion Hs as [|? ? Hb Hs']; subst.
  destruct (is_filled b) eqn:Hf.
  - injection H as <-. auto.
  - pose proof (get_unfilled_cell_rand_cases b (rnd k)) as Hc.
    destruct (get_unfilled_cell_rand b (rnd k)) as [[x y]|e];
      [|discriminate].
    apply (IH _ _ _ (push_candidates_well_formed order b x y stack Hb Hc Hs')
             H).
Qed.

Lemma backtrack_loop_good fuel :
  forall stack k b',
    Forall good stack ->
    backtrack_loop fuel order rnd stack k = Some (Ok b') ->
    good b'.
Proof.
  induction fuel as [|fuel IH]; intros stack k b' Hs H; [discriminate|].
  cbn [backtrack_loop] in H.
  destruct stack as [|b stack]; [discriminate|].
  inversion Hs as [|? ? Hb Hs']; subst.
  destruct (is_filled b) eqn:Hf.
  - injection H as <-. auto.
  - pose proof (get_unfilled_cell_rand_cases b (rnd k)) as Hc.
    destruct (get_unfilled_cell_rand b (rnd k)) as [[x y]|e];
      [|discriminate].
    apply (IH _ _ _ (push_candidates_good b x y stack Hb Hc Hs') H).
Qed.

(** C1 (amended). Whenever [backtrack_iter] returns, the returned grid has
    no empty cell; if moreover the starting grid is consistent (values in
    0..9, no digit repeated in a row, column or block), every row, column
    and block of the returned grid holds each of 1..9 exactly once. *)
Theorem backtrack_iter_valid fuel b b' :
  well_formed b ->
  backtrack_iter fuel order rnd b = Some (Ok b') ->
  is_filled b' = true
  /\ (forall x y, x < BOARD_DIM -> y < BOARD_DIM -> get b' x y <> 0%Z)
  /\ (consistent b = true -> valid_solution b').
Proof.
  intros Hb H. unfold backtrack_iter in H.
  destruct (backtrack_loop_filled fuel [b] 0 b') as [Hb' Hf];
    [constructor; [assumption|constructor]|assumption|].
  split; [assumption|]. split.
  - apply zero_indices_nil, is_filled_zero_indices; assumption.
  - intros Hc. apply good_filled_valid; [|assumption].
    apply (backtrack_loop_good fuel [b] 0); [|assumption].
    constructor; [|constructor]. apply consistent_good; assumption.
Qed.

End Search.

Lemma ascending_perm l : Permutation (ascending l) l.
Proof. apply Permutation_refl. Qed.

Lemma backtrack_iter_valid_witness :
  is_filled solved_grid = true
  /\ (forall x y, x < BOARD_DIM -> y < BOARD_DIM -> get solved_grid x y <> 0%Z)
  /\ (consistent two_cleared = true -> valid_solution solved_grid).
Proof.
  apply (backtrack_iter_valid ascending ascending_perm (fun _ => 0)
           2 two_cleared solved_grid).
  - reflexivity.
  - vm_compute. reflexivity.
Defined.

(** C1 (as stated) fails: the complete grid of ones is returned as it is,
    although each of its rows holds the digit 1 nine times. *)
Lemma backtrack_iter_returns_invalid_grid :
  well_formed all_ones
  /\ (forall fuel order rnd,
        backtrack_iter (S fuel) order rnd all_ones = Some (Ok all_ones))
  /\ is_filled all_ones = true
  /\ ~ valid_solution all_ones.
Proof.
  split; [reflexivity|]. split; [reflexivity|]. split; [reflexivity|].
  intros H.
  assert (In (row_cells 0) all_groups) as Hg by (left; reflexivity).
  assert (In 1%Z COMPLETE_ROW) as Hv by (left; reflexivity).
  specialize (H _ Hg _ Hv). vm_compute in H. discriminate H.
Qed.

(** ** Solutions respect the candidate sets *)

Lemma NoDup_map_inj_in {A B} (f : A -> B) (l : list A) c d :
  List.NoDup (map f l) -> In c l -> In d l -> f c = f d -> c = d.
Proof.
  induction l as [|a l IH]; intros Hn Hc Hd E; [destruct Hc|].
  simpl in Hn. inversion Hn as [|? ? Ha Hl]; subst.
  destruct Hc as [->|Hc], Hd as [->|Hd]; auto.
  - exfalso. apply Ha. rewrite E. apply in_map. assumption.
  - exfalso. apply Ha. rewrite <- E. apply in_map. assumption.
Qed.

Lemma complete_row_NoDup : List.NoDup COMPLETE_ROW.
Proof. apply NoDup_ListNoDup, (bool_decide_unpack _). vm_compute. exact I. Qed.

(** In a solution the nine values of a group are distinct digits. *)
Lemma valid_solution_group b g :
  valid_solution b -> In g all_groups ->
  incl (values b g) COMPLETE_ROW /\ List.NoDup (values b g).
Proof.
  intros Hv Hg. specialize (Hv g Hg).
  destruct (group_facts g Hg) as (Hl & _).
  assert (incl COMPLETE_ROW (values b g)) as Hi.
  { intros v Hin. apply (count_occ_In Z.eq_dec). rewrite (Hv v Hin). lia. }
  assert (incl (values b g) COMPLETE_ROW) as Hi'.
  { apply List.NoDup_length_incl; [apply complete_row_NoDup| |assumption].
    unfold values. rewrite List.length_map, Hl. reflexivity. }
  split; [assumption|].
  apply (List.NoDup_count_occ Z.eq_dec). intros v.
  destruct (count_occ Z.eq_dec (values b g) v) as [|n] eqn:E; [lia|].
  assert (In v (values b g)) as Hin
      by (apply (count_occ_In Z.eq_dec); lia).
  rewrite (Hv v (Hi' v Hin)) in E. lia.
Qed.

Lemma block_lt x y : x < BOARD_DIM -> y < BOARD_DIM -> BLOCK_ARRAY x y < BOARD_DIM.
Proof.
  unfold BLOCK_ARRAY, BOARD_DIM. intros Hx Hy.
  assert (x / 3 < 3) by (apply Nat.Div0.div_lt_upper_bound; lia).
  assert (y / 3 < 3) by (apply Nat.Div0.div_lt_upper_bound; lia).
  lia.
Qed.

(** Two cells that share a row, a column or a block lie in one of the 27
    groups. *)
Lemma same_group_in_group x y x' y' :
  x < BOARD_DIM -> y < BOARD_DIM -> x' < BOARD_DIM -> y' < BOARD_DIM ->
  same_group (x, y) (x', y') = true ->
  exists g, In g all_groups /\ In (x, y) g /\ In (x', y') g.
Proof.
  intros Hx Hy Hx' Hy' H. apply same_group_spec in H.
  destruct H as [<-|[<-|H]].
  - exists (row_cells x). repeat split.
    + unfold all_groups. apply in_or_app. left. apply in_map, in_seq. lia.
    + unfold row_cells. apply in_map_iff. exists y. split; [reflexivity|].
      apply in_seq. lia.
    + unfold row_cells. apply in_map_iff. exists y'. split; [reflexivity|].
      apply in_seq. lia.
  - exists (column_cells y). repeat split.
    + unfold all_groups. apply in_or_app. right. apply in_or_app. left.
      apply in_map, in_seq. lia.
    + unfold column_cells. apply in_map_iff. exists x. split; [reflexivity|].
      apply in_seq. lia.
    + unfold column_cells. apply in_map_iff. exists x'. split; [reflexivity|].
      apply in_seq. lia.
  - exists (block_cells (BLOCK_ARRAY x y)). repeat split.
    + unfold all_groups. apply in_or_app. right. apply in_or_app. right.
      apply in_map, in_seq. pose proof (block_lt x y Hx Hy). lia.
    + apply in_block_cells. auto.
    + apply in_block_cells. auto.
Qed.

(** The value of a solution at an empty cell of the grid it completes is one
    of the candidates of that cell. *)
Lemma candidates_sound b b' x y :
  valid_solution b' -> extends b b' ->
  x < BOARD_DIM -> y < BOARD_DIM -> get b x y = 0%Z ->
  In (get b' x y) (construct_candidates b x y).
Proof.
  intros Hv He Hx Hy H0.
  assert (same_group (x, y) (x, y) = true) as Hrefl
      by (apply same_group_spec; auto).
  assert (In (get b' x y) COMPLETE_ROW) as Hc.
  { destruct (same_group_in_group x y x y Hx Hy Hx Hy Hrefl)
      as (g & Hg & Hin & _).
    apply (proj1 (valid_solution_group b' g Hv Hg)).
    unfold values. apply in_map_iff. exists (x, y). auto. }
  apply in_candidates; [assumption..|]. split; [assumption|].
  intros p q Hp Hq Hs E. apply complete_row_spec in Hc.
  assert (get b' p q = get b p q) as E' by (apply He; [assumption..|lia]).
  destruct (same_group_in_group x y p q Hx Hy Hp Hq Hs)
    as (g & Hg & Hin1 & Hin2).
  destruct (valid_solution_group b' g Hv Hg) as [_ Hn].
  assert ((x, y) = (p, q)) as Ec.
  { apply (NoDup_map_inj_in (fun c => get b' (fst c) (snd c)) g);
      try assumption. cbn [fst snd]. congruence. }
  inversion Ec; subst p q. lia.
Qed.

(** ** Starting boards *)

Lemma map_fst_combine {A B} (l : list A) (l' : list B) :
  length l = length l' -> map fst (combine l l') = l.
Proof.
  revert l'. induction l as [|a l IH]; intros [|b l'] H; simpl in *;
    try discriminate; [reflexivity|].
  rewrite IH by lia. reflexivity.
Qed.

Lemma map_snd_combine {A B} (l : list A) (l' : list B) :
  length l = length l' -> map snd (combine l l') = l'.
Proof.
  revert l'. induction l as [|a l IH]; intros [|b l'] H; simpl in *;
    try discriminate; [reflexivity|].
  rewrite IH by lia. reflexivity.
Qed.

Lemma fill_block_well_formed cells arr b :
  well_formed b -> well_formed (fill_block cells arr b).
Proof.
  unfold fill_block. apply fold_left_invariant.
  intros a ck Ha _. apply set_cell_well_formed. assumption.
Qed.

(** The loop leaves the cells outside the block untouched. *)
Lemma fill_block_get_other cells arr b x y :
  (forall c, In c cells -> snd c < BOARD_DIM) -> y < BOARD_DIM ->
  ~ In (x, y) cells ->
  get (fill_block cells arr b) x y = get b x y.
Proof.
  unfold fill_block. revert arr b.
  induction cells as [|c cells IH]; intros [|k arr] b Hr Hy Hn;
    try reflexivity.
  cbn [combine fold_left fst snd].
  rewrite IH; try assumption.
  - apply get_set_cell_ne; [apply Hr; left; reflexivity|assumption|].
    intros E. apply Hn. left. destruct c. exact E.
  - intros d Hd. apply Hr. right. assumption.
  - intros Hin. apply Hn. right. assumption.
Qed.

(** A cell of the block receives the value paired with it. *)
Lemma fill_block_get_in cells arr b x y k :
  well_formed b ->
  (forall c, In c cells -> fst c < BOARD_DIM /\ snd c < BOARD_DIM) ->
  List.NoDup cells -> In ((x, y), k) (combine cells arr) ->
  get (fill_block cells arr b) x y = k.
Proof.
  unfold fill_block. revert arr b.
  induction cells as [|c cells IH]; intros [|v arr] b Hb Hr Hn Hin;
    try (destruct Hin; fail).
  inversion Hn as [|? ? Hc Hn']; subst.
  cbn [combine fold_left fst snd]. cbn [combine] in Hin.
  destruct Hin as [E|Hin].
  - inversion E; subst. cbn [fst snd] in *.
    pose proof (Hr (x, y) (or_introl eq_refl)) as [Hx Hy]. cbn [fst snd] in *.
    change (fold_left _ (combine cells arr) ?a) with (fill_block cells arr a).
    rewrite fill_block_get_other; try assumption.
    + apply get_set_cell_eq; assumption.
    + intros d Hd. apply Hr. right. assumption.
  - apply IH; try assumption.
    + apply set_cell_well_formed. assumption.
    + intros d Hd. apply Hr. right. assumption.
Qed.

(** Two cells of diagonal blocks that share a row, a column or a block lie
    in the same block. *)
Lemma diagonal_peers :
  forallb (fun c =>
    forallb (fun d =>
      negb (same_group c d) || negb (diagonal (fst c) (snd c))
      || negb (diagonal (fst d) (snd d))
      || (BLOCK_ARRAY (fst d) (snd d) =? BLOCK_ARRAY (fst c) (snd c)))
    indices) indices = true.
Proof. vm_compute. reflexivity. Qed.

Lemma good_consistent b : good b -> consistent b = true.
Proof.
  intros [Hb Hr Hc]. unfold consistent. apply andb_true_iff. split.
  - rewrite <- (values_indices b Hb). unfold values.
    apply forallb_forall. intros v Hv. apply in_map_iff in Hv.
    destruct Hv as ([x y] & <- & Hin). apply in_indices in Hin.
    cbn [fst snd]. specialize (Hr x y (proj1 Hin) (proj2 Hin)).
    unfold in_range. apply andb_true_iff. lia.
  - unfold no_conflict. apply forallb_forall. intros [x y] Hin.
    apply forallb_forall. intros [x' y'] Hin'. cbn [fst snd].
    apply in_indices in Hin. apply in_indices in Hin'.
    destruct (same_group (x, y) (x', y')) eqn:Hs; [|reflexivity].
    destruct (coord_eqb (x, y) (x', y')) eqn:He; [reflexivity|].
    destruct (nonzero (get b x y)) eqn:Hnz; [|reflexivity].
    cbn [negb orb]. apply negb_true_iff, Z.eqb_neq.
    apply Hc; try tauto.
    + intros E. inversion E; subst. unfold coord_eqb in He.
      cbn [fst snd] in He. rewrite !Nat.eqb_refl in He. discriminate.
    + unfold nonzero in Hnz. apply negb_true_iff, Z.eqb_neq in Hnz.
      assumption.
Qed.

Section StartingBoard.

Variable cells_order : list coord -> list coord.
Variable shuffled : nat -> list Z.

(** Iterating over the set of the cells of a block visits each cell once;
    a shuffle permutes the array. *)
Hypothesis cells_order_perm : forall l, Permutation (cells_order l) l.
Hypothesis shuffled_perm : forall n, Permutation (shuffled n) arange_1_10.

Let cells (n : nat) : list coord := cells_order (block_cells n).

Lemma in_cells n x y :
  In (x, y) (cells n) <->
  x < BOARD_DIM /\ y < BOARD_DIM /\ BLOCK_ARRAY x y = n.
Proof.
  unfold cells. rewrite <- in_block_cells. split; intros H.
  - apply (Permutation_in _ (cells_order_perm _)). assumption.
  - apply (Permutation_in _ (Permutation_sym (cells_order_perm _))).
    assumption.
Qed.

Lemma cells_range n c :
  In c (cells n) -> fst c < BOARD_DIM /\ snd c < BOARD_DIM.
Proof. destruct c as [x y]. rewrite in_cells. cbn [fst snd]. tauto. Qed.

Lemma cells_NoDup n : n < BOARD_DIM -> List.NoDup (cells n).
Proof.
  intros Hn. unfold cells.
  apply (Permutation_NoDup (Permutation_sym (cells_order_perm _))).
  assert (In (block_cells n) all_groups) as Hg.
  { unfold all_groups. apply in_or_app. right. apply in_or_app. right.
    apply in_map, in_seq. lia. }
  apply (group_facts _ Hg).
Qed.

Lemma cells_length n : n < BOARD_DIM -> length (cells n) = length (shuffled n).
Proof.
  intros Hn. unfold cells.
  rewrite (Permutation_length (cells_order_perm _)).
  rewrite (Permutation_length (shuffled_perm n)).
  assert (In (block_cells n) all_groups) as Hg.
  { unfold all_groups. apply in_or_app. right. apply in_or_app. right.
    apply in_map, in_seq. lia. }
  apply (group_facts _ Hg).
Qed.

Lemma starting_board_unfold :
  starting_board cells_order shuffled =
  fill_block (cells 8) (shuffled 8)
    (fill_block (cells 4) (shuffled 4)
       (fill_block (cells 0) (shuffled 0)
          (repeat 0%Z (BOARD_DIM * BOARD_DIM)))).
Proof. reflexivity. Qed.

Lemma starting_board_well_formed :
  well_formed (starting_board cells_order shuffled).
Proof.
  rewrite starting_board_unfold.
  repeat apply fill_block_well_formed. reflexivity.
Qed.

(** The value of a cell of a diagonal block is the one paired with it. *)
Lemma starting_board_diagonal x y :
  x < BOARD_DIM -> y < BOARD_DIM -> diagonal x y = true ->
  In ((x, y), get (starting_board cells_order shuffled) x y)
     (combine (cells (BLOCK_ARRAY x y)) (shuffled (BLOCK_ARRAY x y))).
Proof.
  intros Hx Hy Hd. set (n := BLOCK_ARRAY x y) in *.
  assert (n < BOARD_DIM) as Hn by (apply block_lt; assumption).
  assert (In (x, y) (cells n)) as Hin by (apply in_cells; auto).
  rewrite <- (map_fst_combine (cells n) (shuffled n) (cells_length n Hn))
    in Hin.
  apply in_map_iff in Hin. destruct Hin as ([c k] & E & Hin).
  cbn [fst] in E. subst c.
  assert (forall m, m <> n -> ~ In (x, y) (cells m)) as Hother.
  { intros m Hm Hc. apply in_cells in Hc. destruct Hc as (_ & _ & Hc).
    apply Hm. symmetry. exact Hc. }
  assert (forall m, forall c, In c (cells m) -> snd c < BOARD_DIM) as Hsnd
      by (intros m c Hc; apply (cells_range m c Hc)).
  replace (get (starting_board cells_order shuffled) x y) with k;
    [assumption|].
  symmetry. rewrite starting_board_unfold.
  unfold diagonal in Hd. fold n in Hd.
  rewrite !orb_true_iff, !Nat.eqb_eq in Hd.
  destruct Hd as [[Hd|Hd]|Hd]; rewrite Hd in *.
  - rewrite fill_block_get_other by first [exact (Hsnd _)|assumption|apply Hother; discriminate].
    rewrite fill_block_get_other by first [exact (Hsnd _)|assumption|apply Hother; discriminate].
    apply fill_block_get_in; try assumption; try reflexivity.
    + apply cells_range.
    + apply cells_NoDup. assumption.
  - rewrite fill_block_get_other by first [exact (Hsnd _)|assumption|apply Hother; discriminate].
    apply fill_block_get_in; try assumption.
    + apply fill_block_well_formed. reflexivity.
    + apply cells_range.
    + apply cells_NoDup. assumption.
  - apply fill_block_get_in; try assumption.
    + repeat apply fill_block_well_formed. reflexivity.
    + apply cells_range.
    + apply cells_NoDup. assumption.
Qed.

(** The other cells are empty. *)
Lemma starting_board_off_diagonal x y :
  x < BOARD_DIM -> y < BOARD_DIM -> diagonal x y = false ->
  get (starting_board cells_order shuffled) x y = 0%Z.
Proof.
  intros Hx Hy Hd. unfold diagonal in Hd.
  rewrite !orb_false_iff, !Nat.eqb_neq in Hd. destruct Hd as [[H0 H4] H8].
  assert (forall m, m <> BLOCK_ARRAY x y -> ~ In (x, y) (cells m)) as Hother.
  { intros m Hm Hc. apply in_cells in Hc. destruct Hc as (_ & _ & Hc).
    congruence. }
  assert (forall m, forall c, In c (cells m) -> snd c < BOARD_DIM) as Hsnd
      by (intros m c Hc; apply (cells_range m c Hc)).
  rewrite starting_board_unfold.
  rewrite !fill_block_get_other
    by first [exact (Hsnd _)|assumption|apply Hother; congruence].
  unfold get.
  destruct (repeat 0%Z (BOARD_DIM * BOARD_DIM) !! cell_index x y) as [v|] eqn:E;
    [|reflexivity].
  cbn [default]. assert (In v (repeat 0%Z (BOARD_DIM * BOARD_DIM))) as Hin.
  { apply list_elem_of_In, list_elem_of_lookup. eauto. }
  apply repeat_spec in Hin. assumption.
Qed.

(** A diagonal-seeded board is a consistent 9x9 grid. *)
Lemma starting_board_good : good (starting_board cells_order shuffled).
Proof.
  set (b := starting_board cells_order shuffled).
  assert (forall x y, x < BOARD_DIM -> y < BOARD_DIM -> diagonal x y = true ->
            In (get b x y) arange_1_10) as Hdigit.
  { intros x y Hx Hy Hd.
    pose proof (starting_board_diagonal x y Hx Hy Hd) as Hin.
    apply in_combine_r in Hin.
    apply (Permutation_in _ (shuffled_perm (BLOCK_ARRAY x y))). assumption. }
  split.
  - apply starting_board_well_formed.
  - intros x y Hx Hy. destruct (diagonal x y) eqn:Hd.
    + apply Hdigit in Hd; try assumption.
      change arange_1_10 with COMPLETE_ROW in Hd.
      apply complete_row_spec in Hd. lia.
    + unfold b. rewrite starting_board_off_diagonal by assumption. lia.
  - intros x y x' y' Hx Hy Hx' Hy' Hne Hs Hnz E.
    destruct (diagonal x y) eqn:Hd;
      [|unfold b in Hnz; rewrite starting_board_off_diagonal in Hnz
          by assumption; contradiction].
    destruct (diagonal x' y') eqn:Hd';
      [|unfold b in E; rewrite (starting_board_off_diagonal x' y') in E
          by assumption; contradiction].
    pose proof diagonal_peers as Hb. rewrite forallb_forall in Hb.
    specialize (Hb (x, y) (proj2 (in_indices x y) (conj Hx Hy))).
    rewrite forallb_forall in Hb.
    specialize (Hb (x', y') (proj2 (in_indices x' y') (conj Hx' Hy'))).
    cbn [fst snd] in Hb. rewrite Hs, Hd, Hd' in Hb. cbn [negb orb] in Hb.
    apply Nat.eqb_eq in Hb.
    pose proof (starting_board_diagonal x y Hx Hy Hd) as Hin.
    pose proof (starting_board_diagonal x' y' Hx' Hy' Hd') as Hin'.
    fold b in Hin, Hin'. rewrite Hb, <- E in Hin'.
    assert (BLOCK_ARRAY x y < BOARD_DIM) as Hn by (apply block_lt; assumption).
    apply Hne.
    assert (((x, y), get b x y) = ((x', y'), get b x y)) as Ec.
    { apply (NoDup_map_inj_in snd
               (combine (cells (BLOCK_ARRAY x y)) (shuffled (BLOCK_ARRAY x y))));
        try assumption; [|reflexivity].
      rewrite map_snd_combine by (apply cells_length; assumption).
      apply (Permutation_NoDup (Permutation_sym (shuffled_perm _))).
      apply complete_row_NoDup. }
    inversion Ec. reflexivity.
Qed.

Lemma starting_board_consistent :
  consistent (starting_board cells_order shuffled) = true.
Proof. apply good_consistent, starting_board_good. Qed.

End StartingBoard.

(** ** Termination of the search *)

Section Termination.

Variable order : list Z -> list Z.
Hypothesis order_perm : forall l, Permutation (order l) l.
Variable rnd : nat -> nat.

(** With more fuel than the weight of the stack the loop ends: it returns
    a complete grid or pops the empty stack. *)
Lemma backtrack_loop_terminates fuel :
  forall stack k,
    Forall well_formed stack -> weight stack < fuel ->
    exists r, backtrack_loop fuel order rnd stack k = Some r
              /\ match r with
                 | Ok b' => is_filled b' = true
                 | Raise e => e = PopFromEmptyList
                 end.
Proof.
  induction fuel as [|fuel IH]; intros stack k Hs Hw; [lia|].
  cbn [backtrack_loop].
  destruct stack as [|b stack]; [eexists; split; reflexivity|].
  inversion Hs as [|? ? Hb Hs']; subst.
  destruct (is_filled b) eqn:Hf; [eexists; split; [reflexivity|assumption]|].
  pose proof (get_unfilled_cell_rand_cases b (rnd k)) as Hc.
  destruct (get_unfilled_cell_rand b (rnd k)) as [[x y]|e].
  - apply IH.
    + apply push_candidates_well_formed; assumption.
    + pose proof (weight_push_candidates order order_perm b x y stack Hb Hc).
      lia.
  - destruct Hc as [_ Hc]. apply (is_filled_zero_indices b Hb) in Hc.
    congruence.
Qed.

(** On a grid all of whose empty cells lack a candidate, the first
    iteration pushes nothing and the second pops the empty stack. *)
Lemma backtrack_loop_dead_end b fuel k :
  well_formed b -> is_filled b = false ->
  (forall x y, In (x, y) (zero_indices b) -> construct_candidates b x y = []) ->
  backtrack_loop (S (S fuel)) order rnd [b] k = Some (Raise PopFromEmptyList).
Proof.
  intros Hb Hf H. cbn [backtrack_loop]. rewrite Hf.
  pose proof (get_unfilled_cell_rand_cases b (rnd k)) as Hc.
  destruct (get_unfilled_cell_rand b (rnd k)) as [[x y]|e].
  - unfold push_candidates. rewrite (H x y Hc), (order_nil order order_perm).
    reflexivity.
  - destruct Hc as [_ Hc]. apply (is_filled_zero_indices b Hb) in Hc.
    congruence.
Qed.

(** X24. From every 9x9 starting grid the loop of [backtrack_iter] stops
    within [10 ^ z + 1] iterations, [z] being the number of empty cells: it
    returns a completely filled grid, or the stack runs empty and
    [stack.pop()] raises IndexError. *)
Theorem backtrack_iter_terminates b fuel :
  well_formed b -> 10 ^ zeros b < fuel ->
  exists r,
    backtrack_iter fuel order rnd b = Some r
    /\ match r with
       | Ok b' => is_filled b' = true
       | Raise e => e = PopFromEmptyList
       end.
Proof.
  intros Hb Hfuel. apply backtrack_loop_terminates.
  - constructor; [assumption|constructor].
  - rewrite weight_cons. change (weight []) with 0. lia.
Qed.

(** C10. A grid with an empty cell, all of whose empty cells have an empty
    candidate set, has no valid completion, and on it [backtrack_iter]
    pushes no frame, so that the next [stack.pop()] raises IndexError: the
    function does not return. *)
Theorem backtrack_iter_no_solution b fuel :
  well_formed b -> is_filled b = false ->
  (forall x y, In (x, y) (zero_indices b) -> construct_candidates b x y = []) ->
  2 <= fuel ->
  backtrack_iter fuel order rnd b = Some (Raise PopFromEmptyList)
  /\ ~ (exists b', extends b b' /\ valid_solution b').
Proof.
  intros Hb Hf H Hfuel. split.
  - destruct fuel as [|[|fuel]]; [lia..|].
    apply backtrack_loop_dead_end; assumption.
  - intros (b' & He & Hv).
    destruct (get_unfilled_cell_rand_not_filled b 0 Hb Hf) as (x & y & Hc).
    apply get_unfilled_cell_rand_ok in Hc. pose proof Hc as Hz.
    apply in_zero_indices in Hz. destruct Hz as (Hx & Hy & H0).
    pose proof (candidates_sound b b' x y Hv He Hx Hy H0) as Hin.
    rewrite (H x y Hc) in Hin. destruct Hin.
Qed.

End Termination.

Lemma backtrack_iter_terminates_witness :
  exists r,
    backtrack_iter 101 ascending (fun _ => 0) two_cleared = Some r
    /\ match r with
       | Ok b' => is_filled b' = true
       | Raise e => e = PopFromEmptyList
       end.
Proof.
  apply (backtrack_iter_terminates ascending ascending_perm (fun _ => 0)
           two_cleared 101).
  - reflexivity.
  - vm_compute. lia.
Defined.

Lemma blocked_grid_candidates x y :
  In (x, y) (zero_indices blocked_grid) ->
  construct_candidates blocked_grid x y = [].
Proof.
  intros H. vm_compute in H. destruct H as [E|[]].
  inversion E; subst. vm_compute. reflexivity.
Qed.

Lemma backtrack_iter_no_solution_witness :
  zero_indices blocked_grid = [(0, 0)]
  /\ backtrack_iter 2 ascending (fun _ => 0) blocked_grid
     = Some (Raise PopFromEmptyList)
  /\ ~ (exists b', extends blocked_grid b' /\ valid_solution b').
Proof.
  split; [vm_compute; reflexivity|].
  apply (backtrack_iter_no_solution ascending ascending_perm (fun _ => 0)
           blocked_grid 2).
  - reflexivity.
  - vm_compute. reflexivity.
  - exact blocked_grid_candidates.
  - lia.
Defined.

Lemma stuck_grid_candidates x y :
  In (x, y) (zero_indices stuck_grid) ->
  construct_candidates stuck_grid x y = [].
Proof.
  intros H. vm_compute in H. destruct H as [E|[E|[]]];
    inversion E; subst; vm_compute; reflexivity.
Qed.

(** [stuck_grid] is a consistent partial grid without completion, and on it
    [backtrack_iter] raises IndexError whatever the random draws and the
    iteration order are. *)
Lemma backtrack_iter_raises_on_consistent_grid :
  well_formed stuck_grid
  /\ consistent stuck_grid = true
  /\ is_filled stuck_grid = false
  /\ forall order rnd fuel,
       (forall l, Permutation (order l) l) ->
       backtrack_iter (S (S fuel)) order rnd stuck_grid
       = Some (Raise PopFromEmptyList).
Proof.
  split; [reflexivity|]. split; [vm_compute; reflexivity|].
  split; [vm_compute; reflexivity|].
  intros order rnd fuel Hp. apply backtrack_loop_dead_end.
  - assumption.
  - reflexivity.
  - vm_compute. reflexivity.
  - exact stuck_grid_candidates.
Qed.

(** From a diagonal-seeded board the search stops, and a grid it returns is
    a solution. *)
Lemma backtrack_iter_starting_board order rnd cells_order shuffled fuel :
  (forall l, Permutation (order l) l) ->
  (forall l, Permutation (cells_order l) l) ->
  (forall n, Permutation (shuffled n) arange_1_10) ->
  10 ^ zeros (starting_board cells_order shuffled) < fuel ->
  exists r,
    backtrack_iter fuel order rnd (starting_board cells_order shuffled) = Some r
    /\ match r with
       | Ok b' => is_filled b' = true /\ valid_solution b'
       | Raise e => e = PopFromEmptyList
       end.
Proof.
  intros Ho Hc Hs Hfuel.
  pose proof (starting_board_good cells_order shuffled Hc Hs) as Hg.
  destruct (backtrack_loop_terminates order Ho rnd fuel
              [starting_board cells_order shuffled] 0) as (r & Hr & Hm).
  - constructor; [apply Hg|constructor].
  - rewrite weight_cons. change (weight []) with 0. lia.
  - exists r. split; [exact Hr|]. destruct r as [b'|e]; [|assumption].
    split; [assumption|]. apply good_filled_valid; [|assumption].
    apply (backtrack_loop_good order Ho rnd fuel
             [starting_board cells_order shuffled] 0); [|exact Hr].
    constructor; [assumption|constructor].
Qed.

(** ** Uniqueness verification *)

Lemma grid_equal_spec a b : grid_equal a b = true <-> a = b.
Proof.
  revert b. induction a as [|v a IH]; intros [|w b]; simpl;
    try (split; [discriminate|discriminate]); [tauto|].
  rewrite andb_true_iff, Z.eqb_eq, IH.
  split; [intros [-> ->]; reflexivity|intros E; inversion E; auto].
Qed.

Lemma board_in_solutions_spec b solutions :
  board_in_solutions b solutions = true <-> In b solutions.
Proof.
  unfold board_in_solutions. rewrite existsb_exists. split.
  - intros (s & Hs & E). apply grid_equal_spec in E. subst. assumption.
  - intros H. exists b. split; [assumption|apply grid_equal_spec; reflexivity].
Qed.

Lemma distinct_count_NoDup l : List.NoDup l -> distinct_count l = length l.
Proof.
  intros H. unfold distinct_count. rewrite nodup_fixed_point; auto.
Qed.

(** The count depends on the set of grids only. *)
Lemma distinct_count_same l l' :
  (forall s, In s l <-> In s l') -> distinct_count l = distinct_count l'.
Proof.
  intros H. unfold distinct_count. apply Permutation_length.
  apply Permutation.NoDup_Permutation; try apply List.NoDup_nodup.
  intros s. rewrite !nodup_In. apply H.
Qed.

Lemma distinct_count_two l s s' :
  In s l -> In s' l -> s <> s' -> 2 <= distinct_count l.
Proof.
  intros Hs Hs' Hne. unfold distinct_count.
  change 2 with (length [s; s']). apply List.NoDup_incl_length.
  - constructor; [|constructor; [intros []|constructor]].
    intros [E|[]]. congruence.
  - intros t [<-|[<-|[]]]; apply nodup_In; assumption.
Qed.

(** The three parts of the bookkeeping of [solution_unique]. *)
Lemma solution_unique_loop_empty fuel order rnd solutions k :
  solution_unique_loop (S fuel) order rnd [] solutions k
  = Some (Ok (length solutions =? 1), k).
Proof. reflexivity. Qed.

Lemma solution_unique_loop_known fuel order rnd b stack solutions k :
  is_filled b = true -> In b solutions -> length solutions <= 1 ->
  solution_unique_loop (S fuel) order rnd (b :: stack) solutions k
  = solution_unique_loop fuel order rnd stack solutions k.
Proof.
  intros Hf Hin Hl. cbn [solution_unique_loop]. rewrite Hf.
  rewrite (proj2 (board_in_solutions_spec b solutions) Hin).
  destruct (1 <? length solutions) eqn:E; [|reflexivity].
  apply Nat.ltb_lt in E. lia.
Qed.

Lemma solution_unique_loop_second fuel order rnd b s stack k :
  is_filled b = true -> b <> s ->
  solution_unique_loop (S fuel) order rnd (b :: stack) [s] k
  = Some (Ok false, k).
Proof.
  intros Hf Hne. cbn [solution_unique_loop]. rewrite Hf.
  destruct (board_in_solutions b [s]) eqn:E; [|reflexivity].
  apply board_in_solutions_spec in E. destruct E as [E|[]]. congruence.
Qed.

Section Uniqueness.

Variable order : list Z -> list Z.
Hypothesis order_perm : forall l, Permutation (order l) l.
Variable rnd : nat -> nat.

(** The exhaustive traversal ends. *)
Lemma filled_frames_terminates fuel :
  forall stack k,
    Forall well_formed stack -> weight stack < fuel ->
    exists frames, filled_frames fuel order rnd stack k = Some frames.
Proof.
  induction fuel as [|fuel IH]; intros stack k Hs Hw; [lia|].
  cbn [filled_frames].
  destruct stack as [|b stack]; [eexists; reflexivity|].
  inversion Hs as [|? ? Hb Hs']; subst.
  destruct (is_filled b) eqn:Hf.
  - destruct (IH stack k Hs') as (fs & E).
    + rewrite weight_cons in Hw. pose proof (pow10_pos (zeros b)). lia.
    + rewrite E. eexists. reflexivity.
  - pose proof (get_unfilled_cell_rand_cases b (rnd k)) as Hc.
    destruct (get_unfilled_cell_rand b (rnd k)) as [[x y]|e].
    + apply IH.
      * apply push_candidates_well_formed; assumption.
      * pose proof (weight_push_candidates order order_perm b x y stack
                      Hb Hc). lia.
    + destruct Hc as [_ Hc]. apply (is_filled_zero_indices b Hb) in Hc.
      congruence.
Qed.

(** Whenever the exhaustive traversal ends, [solution_unique] answers, and
    its answer tells whether the grids already recorded and the filled
    grids still to be popped amount to exactly one grid. *)
Lemma solution_unique_loop_frames fuel :
  forall stack solutions k frames,
    List.NoDup solutions -> length solutions <= 1 ->
    filled_frames fuel order rnd stack k = Some frames ->
    exists r k',
      solution_unique_loop fuel order rnd stack solutions k = Some (Ok r, k')
      /\ (r = true <-> distinct_count (solutions ++ frames) = 1).
Proof.
  induction fuel as [|fuel IH]; intros stack sols k frames Hn Hl H;
    [discriminate|].
  cbn [filled_frames] in H. cbn [solution_unique_loop].
  destruct stack as [|b stack].
  - injection H as <-. exists (length sols =? 1), k.
    split; [reflexivity|].
    rewrite app_nil_r, distinct_count_NoDup by assumption.
    apply Nat.eqb_eq.
  - destruct (is_filled b) eqn:Hf.
    + destruct (filled_frames fuel order rnd stack k) as [fs|] eqn:Efs;
        [|discriminate].
      injection H as <-.
      destruct (board_in_solutions b sols) eqn:Ein.
      * apply board_in_solutions_spec in Ein.
        destruct (1 <? length sols) eqn:E1;
          [apply Nat.ltb_lt in E1; lia|].
        destruct (IH stack sols k fs Hn Hl Efs) as (r & k' & Hr & Hiff).
        exists r, k'. split; [assumption|]. rewrite Hiff.
        rewrite (distinct_count_same (sols ++ b :: fs) (sols ++ fs));
          [reflexivity|].
        intros s. rewrite !in_app_iff. simpl. split; [|tauto].
        intros [?|[<-|?]]; auto.
      * assert (~ In b sols) as Hnin.
        { intros Hin. apply board_in_solutions_spec in Hin. congruence. }
        destruct (1 <? length (sols ++ [b])) eqn:E1.
        -- exists false, k. split; [reflexivity|].
           split; [discriminate|]. intros Hd. exfalso.
           apply Nat.ltb_lt in E1. rewrite length_app in E1. simpl in E1.
           destruct sols as [|s [|? ?]]; simpl in *; try lia.
           assert (2 <= distinct_count (s :: b :: fs)) as H2.
           { apply (distinct_count_two _ s b).
             - left. reflexivity.
             - right. left. reflexivity.
             - intros ->. apply Hnin. left. reflexivity. }
           lia.
        -- apply Nat.ltb_ge in E1.
           assert (List.NoDup (sols ++ [b])) as Hn'.
           { apply List.NoDup_app; [assumption|repeat constructor; intros []|].
             intros s Hs [<-|[]]. contradiction. }
           destruct (IH stack (sols ++ [b]) k fs Hn' E1 Efs)
             as (r & k' & Hr & Hiff).
           exists r, k'. split; [assumption|].
           rewrite <- app_assoc in Hiff. exact Hiff.
    + destruct (get_unfilled_cell_rand b (rnd k)) as [[x y]|e];
        [|discriminate].
      apply IH; assumption.
Qed.

(** C2. On a 9x9 grid and with more than [10 ^ z] units of fuel ([z] empty
    cells), both the exhaustive traversal and [solution_unique] end, and
    [solution_unique] returns True exactly when the filled grids met by the
    traversal amount to one distinct grid.  The registry works as follows:
    a filled grid that is already recorded is skipped, a filled grid that
    differs from the recorded one ends the loop with False at once, and on
    the empty stack the answer is True exactly for one recorded solution
    (False for none). *)
Theorem solution_unique_spec b k fuel :
  well_formed b -> 10 ^ zeros b < fuel ->
  (exists frames r k',
     filled_frames fuel order rnd [b] k = Some frames
     /\ solution_unique fuel order rnd b k = Some (Ok r, k')
     /\ (r = true <-> distinct_count frames = 1))
  /\ (forall n s stack solutions j,
        is_filled s = true -> In s solutions -> length solutions <= 1 ->
        solution_unique_loop (S n) order rnd (s :: stack) solutions j
        = solution_unique_loop n order rnd stack solutions j)
  /\ (forall n s s' stack j,
        is_filled s' = true -> s' <> s ->
        solution_unique_loop (S n) order rnd (s' :: stack) [s] j
        = Some (Ok false, j))
  /\ (forall n solutions j,
        solution_unique_loop (S n) order rnd [] solutions j
        = Some (Ok (length solutions =? 1), j))
  /\ (forall n j,
        solution_unique_loop (S n) order rnd [] [] j = Some (Ok false, j)).
Proof.
  intros Hb Hfuel. split; [|split; [|split; [|split]]].
  - destruct (filled_frames_terminates fuel [b] k) as (frames & E).
    + constructor; [assumption|constructor].
    + rewrite weight_cons. change (weight []) with 0. lia.
    + destruct (solution_unique_loop_frames fuel [b] [] k frames)
        as (r & k' & Hr & Hiff); [constructor|simpl; lia|assumption|].
      exists frames, r, k'. auto.
  - intros. apply solution_unique_loop_known; assumption.
  - intros. apply solution_unique_loop_second; assumption.
  - intros. apply solution_unique_loop_empty.
  - intros. reflexivity.
Qed.

End Uniqueness.

Lemma solution_unique_spec_witness :
  exists frames r k',
    filled_frames 101 ascending (fun _ => 0) [two_cleared] 0 = Some frames
    /\ solution_unique 101 ascending (fun _ => 0) two_cleared 0
       = Some (Ok r, k')
    /\ (r = true <-> distinct_count frames = 1).
Proof.
  apply (solution_unique_spec ascending ascending_perm (fun _ => 0)
           two_cleared 0 101).
  - reflexivity.
  - vm_compute. lia.
Defined.

(** ** Carving *)

(** *** Clearing one cell of a solution *)

Lemma valid_solution_in_row b x w :
  valid_solution b -> x < BOARD_DIM -> In w COMPLETE_ROW ->
  exists j, j < BOARD_DIM /\ get b x j = w.
Proof.
  intros Hv Hx Hw.
  assert (In (row_cells x) all_groups) as Hg.
  { unfold all_groups. apply in_or_app. left. apply in_map, in_seq. lia. }
  specialize (Hv _ Hg _ Hw).
  assert (In w (values b (row_cells x))) as Hin
      by (apply (count_occ_In Z.eq_dec); lia).
  unfold values, row_cells in Hin. rewrite map_map in Hin.
  apply in_map_iff in Hin. destruct Hin as (j & E & Hj).
  apply in_seq in Hj. exists j. split; [lia|exact E].
Qed.

Lemma valid_solution_digit b x y :
  valid_solution b -> x < BOARD_DIM -> y < BOARD_DIM ->
  In (get b x y) COMPLETE_ROW.
Proof.
  intros Hv Hx Hy.
  assert (same_group (x, y) (x, y) = true) as Hrefl
      by (apply same_group_spec; auto).
  destruct (same_group_in_group x y x y Hx Hy Hx Hy Hrefl)
    as (g & Hg & Hin & _).
  apply (proj1 (valid_solution_group b g Hv Hg)).
  unfold values. apply in_map_iff. exists (x, y). auto.
Qed.

Lemma valid_solution_filled b :
  well_formed b -> valid_solution b -> is_filled b = true.
Proof.
  intros Hb Hv. apply is_filled_zero_indices, zero_indices_nil; [assumption|].
  intros x y Hx Hy E.
  pose proof (valid_solution_digit b x y Hv Hx Hy) as Hd.
  apply complete_row_spec in Hd. lia.
Qed.

(** In a solution two cells of a group hold different digits. *)
Lemma valid_solution_distinct b x y p q :
  valid_solution b ->
  x < BOARD_DIM -> y < BOARD_DIM -> p < BOARD_DIM -> q < BOARD_DIM ->
  same_group (x, y) (p, q) = true -> get b p q = get b x y ->
  (p, q) = (x, y).
Proof.
  intros Hv Hx Hy Hp Hq Hs E.
  destruct (same_group_in_group x y p q Hx Hy Hp Hq Hs)
    as (g & Hg & Hin1 & Hin2).
  destruct (valid_solution_group b g Hv Hg) as [_ Hn].
  apply (NoDup_map_inj_in (fun c => get b (fst c) (snd c)) g); assumption.
Qed.

(** No cell of a solution has a candidate, so a propagation pass leaves a
    solution as it is. *)
Lemma valid_solution_candidates b x y :
  valid_solution b -> x < BOARD_DIM -> y < BOARD_DIM ->
  construct_candidates b x y = [].
Proof.
  intros Hv Hx Hy.
  destruct (construct_candidates b x y) as [|w l] eqn:E; [reflexivity|].
  assert (In w (construct_candidates b x y)) as Hin
      by (rewrite E; left; reflexivity).
  apply in_candidates in Hin; [|assumption..]. destruct Hin as [Hw H].
  destruct (valid_solution_in_row b x w Hv Hx Hw) as (j & Hj & Ej).
  exfalso. apply (H x j Hx Hj); [|assumption].
  apply same_group_spec. auto.
Qed.

Lemma propagate_constraint_valid b :
  valid_solution b -> propagate_constraint b = b.
Proof.
  intros Hv. unfold propagate_constraint. apply fold_left_fixed.
  intros [x y] Hc. apply in_indices in Hc.
  apply propagate_cell_no_single. cbn [fst snd].
  rewrite valid_solution_candidates by tauto. discriminate.
Qed.

Lemma candidates_NoDup b x y : List.NoDup (construct_candidates b x y).
Proof.
  unfold construct_candidates, set_and, choices_from_square, set_minus.
  repeat apply List.NoDup_filter. apply complete_row_NoDup.
Qed.

Lemma singleton_list {A} (l : list A) v :
  List.NoDup l -> (forall w, In w l <-> w = v) -> l = [v].
Proof.
  intros Hn H. destruct l as [|a l].
  - exfalso. apply (proj2 (H v) eq_refl).
  - assert (a = v) as -> by (apply H; left; reflexivity).
    destruct l as [|c l]; [reflexivity|].
    assert (c = v) as -> by (apply H; right; left; reflexivity).
    inversion Hn as [|? ? Hnin _]; subst. exfalso. apply Hnin. left. reflexivity.
Qed.

(** The only candidate of a cleared cell of a solution is its old value. *)
Lemma cleared_candidates b x y :
  well_formed b -> valid_solution b -> x < BOARD_DIM -> y < BOARD_DIM ->
  construct_candidates (set_cell b x y 0%Z) x y = [get b x y].
Proof.
  intros Hb Hv Hx Hy. apply singleton_list; [apply candidates_NoDup|].
  pose proof (valid_solution_digit b x y Hv Hx Hy) as Hd.
  intros w. rewrite in_candidates by assumption. split.
  - intros [Hw H].
    destruct (valid_solution_in_row b x w Hv Hx Hw) as (j & Hj & Ej).
    destruct (Nat.eq_dec j y) as [->|Hne]; [congruence|].
    exfalso. apply (H x j Hx Hj); [apply same_group_spec; auto|].
    rewrite get_set_cell_ne; [assumption..|congruence].
  - intros ->. split; [assumption|]. intros p q Hp Hq Hs E.
    rewrite get_set_cell in E by assumption.
    destruct (coord_eq_dec (x, y) (p, q)) as [Ec|Ec].
    + apply complete_row_spec in Hd. lia.
    + apply Ec. symmetry.
      apply (valid_solution_distinct b x y p q); assumption.
Qed.

(** Restoring the remembered value undoes the clearing. *)
Lemma set_cell_restore b x y :
  well_formed b -> x < BOARD_DIM -> y < BOARD_DIM ->
  set_cell (set_cell b x y 0%Z) x y (get b x y) = b.
Proof.
  intros Hb Hx Hy. unfold set_cell, get.
  rewrite list_insert_insert_eq. apply list_insert_id.
  destruct (b !! cell_index x y) as [v|] eqn:E; [reflexivity|].
  apply lookup_ge_None in E.
  pose proof (cell_index_lt b x y Hb Hx Hy). lia.
Qed.

Lemma position_cell_lt p :
  p < BOARD_DIM * BOARD_DIM ->
  fst (position_cell p) < BOARD_DIM /\ snd (position_cell p) < BOARD_DIM.
Proof.
  unfold position_cell, BOARD_DIM. cbn [fst snd]. intros Hp. split.
  - apply Nat.mod_upper_bound. discriminate.
  - apply Nat.Div0.div_lt_upper_bound. lia.
Qed.

(** The positions 0..80 stand for the 81 cells, each once. *)
Lemma position_cells_indices :
  Permutation (map position_cell (seq 0 (BOARD_DIM * BOARD_DIM))) indices.
Proof. apply (bool_decide_unpack _). vm_compute. exact I. Qed.

Section Carving.

Variable order : list Z -> list Z.
Hypothesis order_perm : forall l, Permutation (order l) l.
Variable rnd : nat -> nat.

(** A solution with one cell cleared is reported unique, after one draw. *)
Lemma solution_unique_one_cleared b x y k fuel :
  well_formed b -> valid_solution b -> x < BOARD_DIM -> y < BOARD_DIM ->
  solution_unique (S (S (S fuel))) order rnd (set_cell b x y 0%Z) k
  = Some (Ok true, S k).
Proof.
  intros Hb Hv Hx Hy. unfold solution_unique.
  set (b0 := set_cell b x y 0%Z).
  assert (well_formed b0) as Hb0 by (apply set_cell_well_formed; assumption).
  assert (get b0 x y = 0%Z) as H0 by (apply get_set_cell_eq; assumption).
  assert (is_filled b0 = false) as Hf0.
  { destruct (is_filled b0) eqn:E; [|reflexivity].
    apply (is_filled_zero_indices b0 Hb0) in E.
    apply (proj1 (zero_indices_nil b0)) with (x := x) (y := y) in E;
      [contradiction|assumption..]. }
  cbn [solution_unique_loop]. rewrite Hf0.
  pose proof (get_unfilled_cell_rand_cases b0 (rnd k)) as Hc.
  destruct (get_unfilled_cell_rand b0 (rnd k)) as [[p q]|e].
  - apply in_zero_indices in Hc. destruct Hc as (Hp & Hq & E).
    assert ((x, y) = (p, q)) as Ec.
    { destruct (coord_eq_dec (x, y) (p, q)) as [Ec|Ec]; [assumption|].
      unfold b0 in E. rewrite get_set_cell_ne in E by assumption.
      pose proof (valid_solution_digit b p q Hv Hp Hq) as Hd.
      apply complete_row_spec in Hd. lia. }
    inversion Ec; subst p q.
    unfold push_candidates, b0.
    rewrite cleared_candidates by assumption.
    rewrite (Permutation_length_1_inv
               (Permutation_sym (order_perm [get b x y]))).
    cbn [fold_left].
    rewrite set_cell_restore by assumption.
    rewrite propagate_constraint_valid by assumption.
    rewrite (valid_solution_filled b Hb Hv).
    reflexivity.
  - destruct Hc as [_ Hc]. apply (is_filled_zero_indices b0 Hb0) in Hc.
    congruence.
Qed.

(** The carving loop only clears cells: the board stays a 9x9 board, a
    cleared cell stays cleared, and every clue left is a clue of the
    solution. *)
Lemma create_puzzle_loop_clears s x0 y0 fuel positions :
  forall b k p k',
    Forall (fun position => position < BOARD_DIM * BOARD_DIM) positions ->
    x0 < BOARD_DIM -> y0 < BOARD_DIM ->
    well_formed b -> get b x0 y0 = 0%Z -> extends b s ->
    create_puzzle_loop fuel order rnd positions b k = Some (Ok p, k') ->
    well_formed p /\ get p x0 y0 = 0%Z /\ extends p s.
Proof.
  induction positions as [|position positions IH];
    intros b k p k' Hps Hx0 Hy0 Hb H0 He H.
  - injection H as <- <-. auto.
  - inversion Hps as [|? ? Hpos Hps']; subst.
    destruct (position_cell_lt position Hpos) as [Hx Hy].
    unfold position_cell in Hx, Hy. cbn [fst snd] in Hx, Hy.
    cbn [create_puzzle_loop] in H. cbv zeta in H.
    rewrite set_cell_restore in H by assumption.
    destruct (solution_unique fuel order rnd _ k) as [[[u|e] k1]|];
      [|discriminate..].
    destruct u; cbn [negb] in H.
    + apply (IH _ _ _ _ Hps' Hx0 Hy0) in H; try assumption.
      * apply set_cell_well_formed. assumption.
      * rewrite get_set_cell by assumption.
        destruct (coord_eq_dec _ _); [reflexivity|assumption].
      * intros x y Hx' Hy'. rewrite get_set_cell by assumption.
        destruct (coord_eq_dec _ _); [congruence|]. apply He; assumption.
    + apply (IH _ _ _ _ Hps' Hx0 Hy0) in H; assumption.
Qed.

(** The parts of C3 that hold: the positions popped stand for the 81 cells,
    each once; the puzzle has fewer clues than the solution it is carved
    from, since the first cell visited is always cleared; and every clue of
    the puzzle is a clue of the solution. *)
Lemma create_puzzle_carves fuel shuffled s k p k' :
  well_formed s -> valid_solution s ->
  Permutation shuffled (seq 0 (BOARD_DIM * BOARD_DIM)) -> 3 <= fuel ->
  _create_puzzle fuel order rnd shuffled s k = Some (Ok p, k') ->
  Permutation (map position_cell (rev shuffled)) indices
  /\ count_nonzero p < count_nonzero s
  /\ extends p s.
Proof.
  intros Hs Hv Hperm Hfuel H. split.
  { rewrite <- position_cells_indices. apply Permutation_map.
    rewrite <- Hperm. symmetry. apply Permutation_rev. }
  unfold _create_puzzle in H.
  assert (Permutation (rev shuffled) (seq 0 (BOARD_DIM * BOARD_DIM))) as Hrev
      by (rewrite <- Hperm; symmetry; apply Permutation_rev).
  assert (Forall (fun position => position < BOARD_DIM * BOARD_DIM)
                 (rev shuffled)) as Hps.
  { apply List.Forall_forall. intros position Hin.
    apply (Permutation_in _ Hrev) in Hin. apply in_seq in Hin. lia. }
  destruct (rev shuffled) as [|position positions].
  { apply Permutation_length in Hrev. discriminate Hrev. }
  inversion Hps as [|? ? Hpos Hps']; subst.
  destruct (position_cell_lt position Hpos) as [Hx Hy].
  unfold position_cell in Hx, Hy. cbn [fst snd] in Hx, Hy.
  cbn [create_puzzle_loop] in H. cbv zeta in H.
  destruct fuel as [|[|[|fuel]]]; [lia..|].
  rewrite solution_unique_one_cleared in H by assumption.
  cbn [negb] in H.
  apply (create_puzzle_loop_clears s (position mod BOARD_DIM)
           (position / BOARD_DIM)) in H; try assumption.
  - destruct H as (Hp & H0 & He). split; [|assumption].
    pose proof (count_nonzero_zero_indices p Hp) as Ep.
    pose proof (count_nonzero_zero_indices s Hs) as Es.
    rewrite (proj1 (is_filled_zero_indices s Hs)
               (valid_solution_filled s Hs Hv)) in Es.
    assert (In (position mod BOARD_DIM, position / BOARD_DIM)
               (zero_indices p)) as Hin by (apply in_zero_indices; auto).
    destruct (zero_indices p); [destruct Hin|]. simpl in *. lia.
  - apply set_cell_well_formed. assumption.
  - apply get_set_cell_eq; assumption.
  - intros x y Hx' Hy'. rewrite get_set_cell by assumption.
    destruct (coord_eq_dec _ _); [congruence|auto].
Qed.

End Carving.

Lemma keeps_clues_extends b b' : keeps_clues b b' = true -> extends b b'.
Proof.
  intros H x y Hx Hy Hnz.
  pose proof (forall_indices
                (fun x y => (get b x y =? 0)%Z || (get b' x y =? get b x y)%Z)
                H x y Hx Hy) as Hc.
  cbv beta in Hc. apply orb_true_iff in Hc. destruct Hc as [Hc|Hc].
  - apply Z.eqb_eq in Hc. contradiction.
  - apply Z.eqb_eq. assumption.
Qed.

Lemma consistent_filled_valid b :
  well_formed b -> consistent b = true -> is_filled b = true ->
  valid_solution b.
Proof.
  intros Hb Hc Hf. apply good_filled_valid; [|assumption].
  apply consistent_good; assumption.
Qed.

(** C3 (the code departs from the claim). [_create_puzzle] run on the
    solution [solved_grid], with the positions popped in the order 80, ..., 0
    and every random draw equal to 0, returns [carved_puzzle] with 45 clues.
    Every clue of the puzzle is a clue of [solved_grid], but [solved_grid] is
    not its only completion: [other_solution] is a second one, although
    [solution_unique] answers True on the puzzle.  Re-solving the puzzle does
    not give back [solved_grid] either: [backtrack_iter] returns
    [resolved_grid], which even drops the clue 5 of the cell (0, 4), and with
    every draw equal to 1 [solution_unique] answers False and
    [backtrack_iter] raises IndexError. *)
Theorem create_puzzle_not_unique :
  valid_solution solved_grid
  /\ _create_puzzle 100 ascending (fun _ => 0) (seq 0 81) solved_grid 0
     = Some (Ok carved_puzzle, 301)
  /\ count_nonzero carved_puzzle = 45
  /\ extends carved_puzzle solved_grid
  /\ extends carved_puzzle other_solution
  /\ valid_solution other_solution
  /\ other_solution <> solved_grid
  /\ solution_unique 100 ascending (fun _ => 0) carved_puzzle 0
     = Some (Ok true, 10)
  /\ backtrack_iter 100 ascending (fun _ => 0) carved_puzzle
     = Some (Ok resolved_grid)
  /\ resolved_grid <> solved_grid
  /\ get carved_puzzle 0 4 = 5%Z /\ get resolved_grid 0 4 = 8%Z
  /\ solution_unique 100 ascending (fun _ => 1) carved_puzzle 0
     = Some (Ok false, 5)
  /\ backtrack_iter 100 ascending (fun _ => 1) carved_puzzle
     = Some (Raise PopFromEmptyList).
Proof.
  split.
  { apply consistent_filled_valid; vm_compute; reflexivity. }
  split; [vm_compute; reflexivity|].
  split; [vm_compute; reflexivity|].
  split; [apply keeps_clues_extends; vm_compute; reflexivity|].
  split; [apply keeps_clues_extends; vm_compute; reflexivity|].
  split.
  { apply consistent_filled_valid; vm_compute; reflexivity. }
  split; [discriminate|].
  split; [vm_compute; reflexivity|].
  split; [vm_compute; reflexivity|].
  split; [discriminate|].
  split; [reflexivity|]. split; [reflexivity|].
  split; vm_compute; reflexivity.
Qed.

(** ** Dead ends of the search *)

Lemma push_candidates_app order b x y stack :
  push_candidates order b x y stack
  = rev (map (fun v => propagate_constraint (set_cell b x y v))
             (order (construct_candidates b x y))) ++ stack.
Proof.
  unfold push_candidates.
  generalize (order (construct_candidates b x y)) as l. intros l.
  revert stack. induction l as [|v l IH]; intros stack; [reflexivity|].
  cbn [fold_left map rev]. rewrite IH, <- app_assoc. reflexivity.
Qed.

Lemma plan_induction (P : plan -> Prop) :
  (forall draw replies, List.Forall P replies -> P (Expand draw replies)) ->
  forall p, P p.
Proof.
  intros H. fix IH 1. intros [draw replies]. apply H.
  induction replies as [|p replies IHr]; constructor; [apply IH|exact IHr].
Qed.

Lemma all2_Forall2 {A B} (f : A -> B -> bool) l l' :
  all2 f l l' = true -> List.Forall2 (fun a b => f a b = true) l l'.
Proof.
  revert l'. induction l as [|a l IH]; intros [|b l'] H; simpl in H;
    try discriminate; constructor.
  - apply andb_true_iff in H. tauto.
  - apply IH. apply andb_true_iff in H. tauto.
Qed.

Lemma list_sum_perm l l' : Permutation l l' -> list_sum l = list_sum l'.
Proof. induction 1; simpl; lia. Qed.

Section Script.

Variable order : list Z -> list Z.
Hypothesis order_perm : forall l, Permutation (order l) l.

Lemma clears_frames (frames : list (nat * board)) :
  List.Forall
    (fun f => exists ds, length ds = fst f /\ clears order (snd f) ds)
    frames ->
  exists ds,
    length ds = list_sum (map fst frames)
    /\ forall rnd k fuel stack,
         (forall i, i < length ds -> rnd (k + i) = nth i ds 0) ->
         backtrack_loop (length ds + fuel) order rnd
           (map snd frames ++ stack) k
         = backtrack_loop fuel order rnd stack (k + length ds).
Proof.
  induction 1 as [|[n b] frames (ds & Hn & Hb) _ (ds' & Hn' & IH)].
  - exists []. split; [reflexivity|]. intros rnd k fuel stack _.
    cbn [length map app Nat.add]. rewrite Nat.add_0_r. reflexivity.
  - cbn [fst snd] in Hn, Hb. exists (ds ++ ds'). split.
    { rewrite length_app. cbn [map fst] in *.
      change (list_sum (n :: map fst frames))
        with (n + list_sum (map fst frames)). lia. }
    intros rnd k fuel stack Hr. cbn [map app snd].
    rewrite length_app, <- Nat.add_assoc.
    rewrite (Hb rnd k (length ds' + fuel) (map snd frames ++ stack)).
    + rewrite IH, Nat.add_assoc; [reflexivity|].
      intros i Hi. rewrite <- Nat.add_assoc, Hr by (rewrite length_app; lia).
      rewrite app_nth2_plus. reflexivity.
    + intros i Hi. rewrite Hr by (rewrite length_app; lia).
      apply app_nth1. assumption.
Qed.

Lemma refutes_clears p :
  forall b, refutes p b = true ->
  exists ds, length ds = plan_size p /\ clears order b ds.
Proof.
  induction p as [draw replies IH] using plan_induction. intros b H.
  cbn [refutes] in H. apply andb_true_iff in H. destruct H as [Hf H].
  apply negb_true_iff in Hf.
  destruct (get_unfilled_cell_rand b draw) as [[x y]|e] eqn:Hc;
    [|discriminate].
  apply all2_Forall2 in H.
  set (child := fun v => propagate_constraint (set_cell b x y v)) in *.
  (* one sized frame for each candidate, in the order of the set *)
  assert (exists pvs : list (plan * Z),
            map snd pvs = order (construct_candidates b x y)
            /\ list_sum (map (fun pv => plan_size (fst pv)) pvs)
               = list_sum (map plan_size replies)
            /\ List.Forall (fun pv => exists ds, length ds = plan_size (fst pv)
                                           /\ clears order (child (snd pv)) ds) pvs)
    as (pvs & Hsnd & Hsum & Hall).
  { assert (exists pvs0 : list (plan * Z),
              map snd pvs0 = construct_candidates b x y
              /\ map fst pvs0 = replies
              /\ List.Forall (fun pv => exists ds, length ds = plan_size (fst pv)
                                           /\ clears order (child (snd pv)) ds) pvs0)
      as (pvs0 & H2 & H1 & H0).
    { revert IH H. generalize (construct_candidates b x y) as vs.
      induction replies as [|p ps IHps]; intros vs IH H;
        inversion H as [|? v ? vs' Hpv Hrest]; subst.
      - exists []. repeat split. constructor.
      - inversion IH as [|? ? Hp Hps]; subst.
        destruct (IHps vs' Hps Hrest) as (pvs0 & H2 & H1 & H0).
        exists ((p, v) :: pvs0). cbn [map fst snd]. rewrite H1, H2.
        repeat split. constructor; [|assumption]. apply Hp. exact Hpv. }
    pose proof (order_perm (construct_candidates b x y)) as Hperm.
    rewrite <- H2 in Hperm.
    apply Permutation_map_inv in Hperm. destruct Hperm as (pvs & E & Hp).
    exists pvs. split; [rewrite <- E, H2; reflexivity|]. split.
    - rewrite <- H1, List.map_map.
      apply list_sum_perm, Permutation_map, Permutation_sym. assumption.
    - apply List.Forall_forall. intros pv Hin.
      apply (proj1 (List.Forall_forall _ _) H0).
      apply (Permutation_in _ (Permutation_sym Hp)). assumption. }
  destruct (clears_frames
              (rev (map (fun pv => (plan_size (fst pv), child (snd pv))) pvs)))
    as (ds & Hlen & Hds).
  { apply List.Forall_forall. intros [n f] Hin. apply in_rev in Hin.
    apply in_map_iff in Hin. destruct Hin as (pv & E & Hin). inversion E; subst.
    exact (proj1 (List.Forall_forall _ _) Hall pv Hin). }
  exists (draw :: ds). split.
  { cbn [length plan_size]. rewrite Hlen, <- Hsum. f_equal.
    rewrite <- map_rev, List.map_map. cbn [fst].
    apply list_sum_perm, Permutation_map, Permutation_sym, Permutation_rev. }
  intros rnd k fuel stack Hr.
  cbn [length Nat.add backtrack_loop]. rewrite Hf.
  pose proof (Hr 0 (Nat.lt_0_succ _)) as H0. rewrite Nat.add_0_r in H0.
  cbn [nth] in H0. rewrite H0, Hc.
  rewrite push_candidates_app, <- Hsnd.
  replace (rev (map (fun v => propagate_constraint (set_cell b x y v))
                    (map snd pvs)))
    with (map snd (rev (map (fun pv => (plan_size (fst pv), child (snd pv)))
                            pvs))).
  - rewrite Hds; [f_equal; lia|].
    intros i Hi. replace (S k + i) with (k + S i) by lia.
    rewrite Hr by (cbn [length]; lia). reflexivity.
  - rewrite map_rev, !List.map_map. reflexivity.
Qed.

Lemma refutes_raises p b :
  refutes p b = true ->
  exists rnd, forall fuel,
    plan_size p < fuel ->
    backtrack_iter fuel order rnd b = Some (Raise PopFromEmptyList).
Proof.
  intros H. destruct (refutes_clears p b H) as (ds & Hlen & Hds).
  exists (fun i => nth i ds 0). intros fuel Hfuel.
  replace fuel with (length ds + S (fuel - S (length ds))) by lia.
  unfold backtrack_iter. rewrite Hds; [reflexivity|].
  intros i _. reflexivity.
Qed.

End Script.

Lemma seeded_shuffle_perm n : Permutation (seeded_shuffle n) arange_1_10.
Proof.
  do 5 (destruct n as [|n]; [apply (bool_decide_unpack _); vm_compute; reflexivity|]).
  apply (bool_decide_unpack _); vm_compute; reflexivity.
Qed.

(** C6 (the code departs from the claim). [seeded_grid] is a board that
    [starting_board] makes, consistent and with the completion
    [seeded_solution], yet the search can end on it with the IndexError of
    [stack.pop()] on the empty stack instead of a complete grid: with the
    draws [seeded_draws] when the candidate sets are iterated in increasing
    order, and with suitable draws whatever the iteration order is.  The
    completion is lost where the pass overwrites cells that the search has
    filled: in the frame for the candidate 5 of the first cell drawn, the
    search writes 3 into the cell (2, 4) and the pass replaces it by 6. *)
Theorem backtrack_iter_fails_on_starting_board :
  seeded_grid = starting_board (fun l => l) seeded_shuffle
  /\ (forall n, Permutation (seeded_shuffle n) arange_1_10)
  /\ consistent seeded_grid = true
  /\ count_nonzero seeded_grid = 27
  /\ extends seeded_grid seeded_solution
  /\ valid_solution seeded_solution
  /\ (let frame := propagate_constraint (set_cell seeded_grid 0 3 5%Z) in
      get_unfilled_cell_rand seeded_grid 0 = Ok (0, 3)
      /\ construct_candidates seeded_grid 0 3 = [1; 5; 6]%Z
      /\ get_unfilled_cell_rand frame 12 = Ok (2, 4)
      /\ construct_candidates frame 2 4 = [3; 6]%Z
      /\ get (propagate_constraint (set_cell frame 2 4 3%Z)) 2 4 = 6%Z)
  /\ backtrack_iter 84 ascending (fun k => nth k seeded_draws 0) seeded_grid
     = Some (Raise PopFromEmptyList)
  /\ (forall order, (forall l, Permutation (order l) l) ->
      exists rnd, forall fuel,
        83 < fuel ->
        backtrack_iter fuel order rnd seeded_grid
        = Some (Raise PopFromEmptyList)).
Proof.
  split; [vm_compute; reflexivity|].
  split; [exact seeded_shuffle_perm|].
  split; [vm_compute; reflexivity|].
  split; [vm_compute; reflexivity|].
  split; [apply keeps_clues_extends; vm_compute; reflexivity|].
  split; [apply consistent_filled_valid; vm_compute; reflexivity|].
  split; [vm_compute; repeat split; reflexivity|].
  split; [vm_compute; reflexivity|].
  intros order Hp.
  apply (refutes_raises order Hp seeded_plan seeded_grid).
  vm_compute. reflexivity.
Qed.

(** ** Pipeline *)

(** For 5 jobs and queues of capacity 10 [main] batches the insertions by 5:
    the batch size is no parameter of the run. *)
Lemma db_batch_size_5_jobs : db_batch_size (Some 5) 10 = Some 5.
Proof. reflexivity. Qed.

(** Up to [2 ^ 53] the float quotient is exact and its floor is the integer
    quotient. *)
Lemma math_floor_half_exact q :
  (q <= 2 ^ 53)%N -> math_floor_half q = Some (q / 2)%N.
Proof.
  intros Hq. unfold math_floor_half.
  destruct (N.leb_spec (N.size q) 53) as [Hs|Hs]; [reflexivity|].
  assert (q = 2 ^ 53)%N as ->; [|vm_compute; reflexivity].
  pose proof (N.size_le q) as Hle.
  assert (2 ^ 54 <= 2 ^ N.size q)%N as Hp
    by (apply N.pow_le_mono_r; [discriminate|lia]).
  rewrite N.succ_double_spec in Hle. lia.
Qed.

Lemma db_batch_size_exact n_jobs queue_size :
  (N.of_nat queue_size <= 2 ^ 53)%N ->
  db_batch_size n_jobs queue_size
  = Some match n_jobs with
         | Some (S n) => Nat.min (queue_size / 2) (S n)
         | _ => queue_size / 2
         end.
Proof.
  intros Hq. unfold db_batch_size. rewrite (math_floor_half_exact _ Hq).
  rewrite N2Nat.inj_div, Nat2N.id. reflexivity.
Qed.

(** Above [2 ^ 53] the quotient is rounded, and its floor need not be the
    integer quotient; beyond the largest double the division raises. *)
Lemma math_floor_half_rounds :
  math_floor_half (2 ^ 54 + 3) = Some (2 ^ 53 + 2)%N
  /\ ((2 ^ 54 + 3) / 2 = 2 ^ 53 + 1)%N
  /\ math_floor_half (2 ^ 54 + 2) = Some (2 ^ 53)%N
  /\ math_floor_half (2 ^ 1025) = None.
Proof. vm_compute. repeat split; reflexivity. Qed.

(** * Further properties of the grid model and the search *)

Lemma solved_grid_valid : valid_solution solved_grid.
Proof. apply consistent_filled_valid; vm_compute; reflexivity. Qed.

Lemma two_cleared_extends : extends two_cleared solved_grid.
Proof. apply keeps_clues_extends. vm_compute. reflexivity. Qed.

(** ** The block partition *)

(** X1. [squares()]: the two tables agree, a cell is in [groups[g]] exactly
    when [lookup] sends it to [g]; each of the nine blocks has nine distinct
    cells, and every cell of the board has its block among them. *)
Theorem squares_partition :
  (forall g x y,
     In (x, y) (fst squares g) <->
     x < BOARD_DIM /\ y < BOARD_DIM /\ snd squares (x, y) = g)
  /\ List.Forall
       (fun g => length (fst squares g) = 9 /\ List.NoDup (fst squares g))
       (seq 0 9)
  /\ List.Forall (fun c => snd squares c < 9) indices.
Proof.
  split; [|split].
  - intros g x y. apply in_block_cells.
  - apply List.Forall_forall. intros g Hg. apply in_seq in Hg.
    assert (In (block_cells g) all_groups) as Hin.
    { unfold all_groups. apply in_or_app. right. apply in_or_app. right.
      apply in_map, in_seq. unfold BOARD_DIM. lia. }
    destruct (group_facts _ Hin) as (Hl & Hn & _). split; assumption.
  - apply List.Forall_forall. intros [x y] Hc. apply in_indices in Hc.
    apply (block_lt x y); tauto.
Qed.

(** ** Candidate sets *)

(** X2. [construct_candidates] returns, without repetition, exactly the
    digits of 1..9 that no cell of the row, the column and the block of
    [(x, y)] holds; the value of a filled cell is never one of its own
    candidates. *)
Theorem construct_candidates_spec b x y :
  x < BOARD_DIM -> y < BOARD_DIM ->
  List.NoDup (construct_candidates b x y)
  /\ (forall v,
        In v (construct_candidates b x y) <->
        (1 <= v <= 9)%Z
        /\ forall x' y', x' < BOARD_DIM -> y' < BOARD_DIM ->
             (x' = x \/ y' = y \/ BLOCK_ARRAY x' y' = BLOCK_ARRAY x y) ->
             get b x' y' <> v)
  /\ ~ In (get b x y) (construct_candidates b x y).
Proof.
  intros Hx Hy. split; [apply candidates_NoDup|]. split.
  - intros v. rewrite in_candidates, complete_row_spec by assumption.
    split; intros [Hv H]; (split; [assumption|]); intros x' y' Hx' Hy' Hs.
    + apply H; try assumption. apply same_group_spec.
      destruct Hs as [->|[->|Hs]]; auto.
    + apply H; try assumption. apply same_group_spec in Hs.
      destruct Hs as [->|[->|Hs]]; auto.
  - intros Hin. apply in_candidates in Hin; [|assumption..].
    destruct Hin as [_ H]. apply (H x y Hx Hy); [|reflexivity].
    apply same_group_spec. auto.
Qed.

Lemma construct_candidates_spec_witness :
  List.NoDup (construct_candidates two_cleared 0 1)
  /\ (forall v,
        In v (construct_candidates two_cleared 0 1) <->
        (1 <= v <= 9)%Z
        /\ forall x' y', x' < BOARD_DIM -> y' < BOARD_DIM ->
             (x' = 0 \/ y' = 1 \/ BLOCK_ARRAY x' y' = BLOCK_ARRAY 0 1) ->
             get two_cleared x' y' <> v)
  /\ ~ In (get two_cleared 0 1) (construct_candidates two_cleared 0 1).
Proof.
  apply (construct_candidates_spec two_cleared 0 1); unfold BOARD_DIM; lia.
Defined.

(** X3. The candidate sets lose no solution: the digit that a valid
    completion of a grid puts into an empty cell is a candidate of that
    cell. *)
Theorem candidates_complete b b' x y :
  valid_solution b' -> extends b b' ->
  x < BOARD_DIM -> y < BOARD_DIM -> get b x y = 0%Z ->
  In (get b' x y) (construct_candidates b x y).
Proof. apply candidates_sound. Qed.

Lemma candidates_complete_witness :
  In (get solved_grid 0 1) (construct_candidates two_cleared 0 1).
Proof.
  apply (candidates_complete two_cleared solved_grid 0 1).
  - exact solved_grid_valid.
  - exact two_cleared_extends.
  - unfold BOARD_DIM. lia.
  - unfold BOARD_DIM. lia.
  - reflexivity.
Defined.

(** X4. In a valid solution no cell has a candidate, and once a cell is
    cleared its candidate set is the single digit it held. *)
Theorem solution_candidates b x y :
  well_formed b -> valid_solution b -> x < BOARD_DIM -> y < BOARD_DIM ->
  construct_candidates b x y = []
  /\ construct_candidates (set_cell b x y 0%Z) x y = [get b x y].
Proof.
  intros Hb Hv Hx Hy. split.
  - apply valid_solution_candidates; assumption.
  - apply cleared_candidates; assumption.
Qed.

Lemma solution_candidates_witness :
  construct_candidates solved_grid 4 7 = []
  /\ construct_candidates (set_cell solved_grid 4 7 0%Z) 4 7
     = [get solved_grid 4 7].
Proof.
  apply (solution_candidates solved_grid 4 7).
  - reflexivity.
  - exact solved_grid_valid.
  - unfold BOARD_DIM. lia.
  - unfold BOARD_DIM. lia.
Defined.

(** ** Cell selection *)

(** X5. Every empty cell can be drawn: for each empty cell of a grid some
    value of [np.random.randint] makes [get_unfilled_cell_rand] return it,
    namely its rank among the empty cells in row-major order. *)
Theorem get_unfilled_cell_rand_reaches b x y :
  In (x, y) (zero_indices b) ->
  exists r, r < length (zero_indices b)
            /\ nth r (zero_indices b) (0, 0) = (x, y)
            /\ get_unfilled_cell_rand b r = Ok (x, y).
Proof.
  intros Hin. destruct (In_nth _ _ (0, 0) Hin) as (r & Hr & E).
  exists r. split; [assumption|]. split; [assumption|].
  unfold get_unfilled_cell_rand, randint.
  destruct (0 <? length (zero_indices b)) eqn:Hl.
  - rewrite Nat.mod_small by assumption. rewrite E. reflexivity.
  - apply Nat.ltb_ge in Hl. lia.
Qed.

Lemma get_unfilled_cell_rand_reaches_witness :
  exists r, r < length (zero_indices two_cleared)
            /\ nth r (zero_indices two_cleared) (0, 0) = (3, 0)
            /\ get_unfilled_cell_rand two_cleared r = Ok (3, 0).
Proof.
  apply (get_unfilled_cell_rand_reaches two_cleared 3 0).
  vm_compute. right. left. reflexivity.
Defined.

(** ** Propagation *)

Lemma count_nonzero_zeros b :
  well_formed b -> count_nonzero b + zeros b = BOARD_DIM * BOARD_DIM.
Proof. exact (count_nonzero_zero_indices b). Qed.

(** What a pass does to the cells: it keeps the shape, and a cell either
    keeps its value or holds a digit afterwards. *)
Lemma propagate_constraint_cells b :
  well_formed b ->
  well_formed (propagate_constraint b)
  /\ forall x y, x < BOARD_DIM -> y < BOARD_DIM ->
       get (propagate_constraint b) x y = get b x y
       \/ (1 <= get (propagate_constraint b) x y <= 9)%Z.
Proof.
  intros Hb. unfold propagate_constraint.
  apply (fold_left_invariant
           (fun a => well_formed a
                     /\ forall x y, x < BOARD_DIM -> y < BOARD_DIM ->
                          get a x y = get b x y \/ (1 <= get a x y <= 9)%Z));
    [|auto].
  intros a [p q] [Ha H] Hc. apply in_indices in Hc.
  unfold propagate_cell. cbn [fst snd].
  destruct (construct_candidates a p q) as [|v [|w l]] eqn:E; auto.
  assert (In v COMPLETE_ROW) as Hv.
  { assert (In v (construct_candidates a p q)) as Hin
        by (rewrite E; left; reflexivity).
    apply in_candidates in Hin; tauto. }
  apply complete_row_spec in Hv.
  split; [apply set_cell_well_formed; assumption|].
  intros x y Hx Hy. rewrite get_set_cell by tauto.
  destruct (coord_eq_dec _ _); [right; assumption|auto].
Qed.

Lemma propagate_constraint_nonzero b x y :
  well_formed b -> x < BOARD_DIM -> y < BOARD_DIM ->
  get b x y <> 0%Z -> get (propagate_constraint b) x y <> 0%Z.
Proof.
  intros Hb Hx Hy H0.
  destruct (proj2 (propagate_constraint_cells b Hb) x y Hx Hy) as [E|E]; lia.
Qed.

(** X6. [propagate_constraint] keeps the shape of the board and never
    empties a cell: each cell keeps its value or ends with a digit of 1..9,
    a filled cell stays filled, and the number of filled cells does not
    drop. *)
Theorem propagate_constraint_keeps_filled b :
  well_formed b ->
  well_formed (propagate_constraint b)
  /\ (forall x y, x < BOARD_DIM -> y < BOARD_DIM ->
        get (propagate_constraint b) x y = get b x y
        \/ (1 <= get (propagate_constraint b) x y <= 9)%Z)
  /\ (forall x y, x < BOARD_DIM -> y < BOARD_DIM ->
        get b x y <> 0%Z -> get (propagate_constraint b) x y <> 0%Z)
  /\ count_nonzero b <= count_nonzero (propagate_constraint b).
Proof.
  intros Hb. destruct (propagate_constraint_cells b Hb) as [Hp Hc].
  split; [assumption|]. split; [assumption|]. split.
  - intros x y. apply propagate_constraint_nonzero. assumption.
  - pose proof (count_nonzero_zeros b Hb) as E1.
    pose proof (count_nonzero_zeros _ Hp) as E2.
    destruct (zeros_propagate_constraint b Hb) as [_ Hz].
    lia.
Qed.

Lemma propagate_constraint_keeps_filled_witness :
  well_formed (propagate_constraint two_cleared)
  /\ (forall x y, x < BOARD_DIM -> y < BOARD_DIM ->
        get (propagate_constraint two_cleared) x y = get two_cleared x y
        \/ (1 <= get (propagate_constraint two_cleared) x y <= 9)%Z)
  /\ (forall x y, x < BOARD_DIM -> y < BOARD_DIM ->
        get two_cleared x y <> 0%Z ->
        get (propagate_constraint two_cleared) x y <> 0%Z)
  /\ count_nonzero two_cleared <= count_nonzero (propagate_constraint two_cleared).
Proof. apply (propagate_constraint_keeps_filled two_cleared). reflexivity. Defined.

(** X7. [propagate_constraint] maps consistent grids to consistent grids:
    after a pass the values are still in 0..9 and no digit occurs twice in a
    row, a column or a block. *)
Theorem propagate_constraint_consistent b :
  well_formed b -> consistent b = true ->
  consistent (propagate_constraint b) = true.
Proof.
  intros Hb Hc.
  apply good_consistent, good_propagate_constraint, consistent_good;
    assumption.
Qed.

Lemma propagate_constraint_consistent_witness :
  consistent (propagate_constraint two_cleared) = true.
Proof.
  apply (propagate_constraint_consistent two_cleared).
  - reflexivity.
  - vm_compute. reflexivity.
Defined.

(** X8. A valid solution is a fixed point of [propagate_constraint]. *)
Theorem propagate_constraint_fixes_solution b :
  valid_solution b -> propagate_constraint b = b.
Proof. apply propagate_constraint_valid. Qed.

Lemma propagate_constraint_fixes_solution_witness :
  propagate_constraint solved_grid = solved_grid.
Proof.
  apply (propagate_constraint_fixes_solution solved_grid).
  exact solved_grid_valid.
Defined.

(** ** The frames of the search *)

(** X9. The loop over the candidates in [backtrack_iter] and
    [solution_unique] pushes one frame per candidate of the drawn cell, at
    most nine, on top of the stack it finds; each frame is a 9x9 board with
    the drawn cell filled and fewer empty cells than the frame expanded, and
    it is consistent if that frame was. *)
Theorem push_candidates_frames order b x y stack :
  (forall l, Permutation (order l) l) ->
  well_formed b -> In (x, y) (zero_indices b) ->
  exists frames,
    push_candidates order b x y stack = frames ++ stack
    /\ length frames = length (construct_candidates b x y)
    /\ length frames <= 9
    /\ List.Forall
         (fun f => well_formed f /\ zeros f < zeros b /\ get f x y <> 0%Z
                   /\ (consistent b = true -> consistent f = true))
         frames.
Proof.
  intros Ho Hb Hz.
  exists (rev (map (fun v => propagate_constraint (set_cell b x y v))
                   (order (construct_candidates b x y)))).
  split; [apply push_candidates_app|].
  rewrite length_rev, List.length_map, (Permutation_length (Ho _)).
  split; [reflexivity|]. split; [apply candidates_length|].
  pose proof Hz as Hz'. apply in_zero_indices in Hz'.
  destruct Hz' as (Hx & Hy & H0).
  apply List.Forall_forall. intros f Hf. apply in_rev, in_map_iff in Hf.
  destruct Hf as (v & <- & Hv). apply (Permutation_in _ (Ho _)) in Hv.
  pose proof (candidates_nonzero b x y v Hv) as Hnz.
  assert (well_formed (set_cell b x y v)) as Hw
      by (apply set_cell_well_formed; assumption).
  destruct (zeros_propagate_constraint _ Hw) as [Hw' Hle].
  split; [assumption|]. split; [|split].
  - pose proof (zeros_write_lt b x y v Hb Hz Hnz). lia.
  - apply propagate_constraint_nonzero; try assumption.
    rewrite get_set_cell_eq; assumption.
  - intros Hc.
    apply good_consistent, good_propagate_constraint, good_write;
      try assumption.
    apply consistent_good; assumption.
Qed.

Lemma push_candidates_frames_witness :
  exists frames,
    push_candidates ascending two_cleared 0 1 [solved_grid]
    = frames ++ [solved_grid]
    /\ length frames = length (construct_candidates two_cleared 0 1)
    /\ length frames <= 9
    /\ List.Forall
         (fun f => well_formed f /\ zeros f < zeros two_cleared
                   /\ get f 0 1 <> 0%Z
                   /\ (consistent two_cleared = true -> consistent f = true))
         frames.
Proof.
  apply (push_candidates_frames ascending two_cleared 0 1 [solved_grid]).
  - exact ascending_perm.
  - reflexivity.
  - vm_compute. left. reflexivity.
Defined.

(** ** Grids with one empty cell *)

(** The only cell that can be drawn from a solution with one cell cleared is
    that cell, and the only frame pushed is the solution itself. *)
Lemma single_hole_expansion order b x y r stack :
  (forall l, Permutation (order l) l) ->
  well_formed b -> valid_solution b -> x < BOARD_DIM -> y < BOARD_DIM ->
  is_filled (set_cell b x y 0%Z) = false
  /\ get_unfilled_cell_rand (set_cell b x y 0%Z) r = Ok (x, y)
  /\ push_candidates order (set_cell b x y 0%Z) x y stack = b :: stack.
Proof.
  intros Ho Hb Hv Hx Hy. set (b0 := set_cell b x y 0%Z).
  assert (well_formed b0) as Hb0 by (apply set_cell_well_formed; assumption).
  assert (get b0 x y = 0%Z) as H0 by (apply get_set_cell_eq; assumption).
  assert (is_filled b0 = false) as Hf0.
  { destruct (is_filled b0) eqn:E; [|reflexivity].
    apply (is_filled_zero_indices b0 Hb0) in E.
    apply (proj1 (zero_indices_nil b0)) with (x := x) (y := y) in E;
      [contradiction|assumption..]. }
  split; [assumption|]. split.
  - pose proof (get_unfilled_cell_rand_cases b0 r) as Hc.
    destruct (get_unfilled_cell_rand b0 r) as [[p q]|e].
    + apply in_zero_indices in Hc. destruct Hc as (Hp & Hq & E).
      destruct (coord_eq_dec (x, y) (p, q)) as [Ec|Ec]; [congruence|].
      unfold b0 in E. rewrite get_set_cell_ne in E by assumption.
      pose proof (valid_solution_digit b p q Hv Hp Hq) as Hd.
      apply complete_row_spec in Hd. lia.
    + destruct Hc as [_ Hc]. apply (is_filled_zero_indices b0 Hb0) in Hc.
      congruence.
  - unfold push_candidates, b0.
    rewrite cleared_candidates by assumption.
    rewrite (Permutation_length_1_inv (Permutation_sym (Ho [get b x y]))).
    cbn [fold_left].
    rewrite set_cell_restore by assumption.
    rewrite propagate_constraint_valid by assumption.
    reflexivity.
Qed.

(** X10. Clearing any one cell of a valid solution and solving again gives
    the solution back: [backtrack_iter] returns it at its second iteration,
    whatever the random draw and the iteration order are. *)
Theorem backtrack_iter_single_hole order rnd b x y fuel :
  (forall l, Permutation (order l) l) ->
  well_formed b -> valid_solution b -> x < BOARD_DIM -> y < BOARD_DIM ->
  backtrack_iter (S (S fuel)) order rnd (set_cell b x y 0%Z) = Some (Ok b).
Proof.
  intros Ho Hb Hv Hx Hy. unfold backtrack_iter.
  destruct (single_hole_expansion order b x y (rnd 0) [] Ho Hb Hv Hx Hy)
    as (Hf & Hc & Hp).
  cbn [backtrack_loop]. rewrite Hf, Hc, Hp.
  rewrite (valid_solution_filled b Hb Hv). reflexivity.
Qed.

Lemma backtrack_iter_single_hole_witness :
  backtrack_iter 2 ascending (fun _ => 7) (set_cell solved_grid 4 4 0%Z)
  = Some (Ok solved_grid).
Proof.
  apply (backtrack_iter_single_hole ascending (fun _ => 7) solved_grid 4 4 0).
  - exact ascending_perm.
  - reflexivity.
  - exact solved_grid_valid.
  - unfold BOARD_DIM. lia.
  - unfold BOARD_DIM. lia.
Defined.

(** X11. A valid solution with exactly one cell cleared is reported unique:
    [solution_unique] returns True after a single random draw. *)
Theorem solution_unique_single_hole order rnd b x y k fuel :
  (forall l, Permutation (order l) l) ->
  well_formed b -> valid_solution b -> x < BOARD_DIM -> y < BOARD_DIM ->
  solution_unique (S (S (S fuel))) order rnd (set_cell b x y 0%Z) k
  = Some (Ok true, S k).
Proof.
  intros Ho Hb Hv Hx Hy. unfold solution_unique.
  destruct (single_hole_expansion order b x y (rnd k) [] Ho Hb Hv Hx Hy)
    as (Hf & Hc & Hp).
  cbn [solution_unique_loop]. rewrite Hf, Hc, Hp.
  rewrite (valid_solution_filled b Hb Hv). reflexivity.
Qed.

Lemma solution_unique_single_hole_witness :
  solution_unique 3 ascending (fun _ => 7) (set_cell solved_grid 4 4 0%Z) 0
  = Some (Ok true, 1).
Proof.
  apply (solution_unique_single_hole ascending (fun _ => 7) solved_grid 4 4 0 0).
  - exact ascending_perm.
  - reflexivity.
  - exact solved_grid_valid.
  - unfold BOARD_DIM. lia.
  - unfold BOARD_DIM. lia.
Defined.

(** X12. On a grid without empty cell [solution_unique] returns True
    without drawing, whether or not the grid obeys the Sudoku rules: the grid
    itself is the one solution it records. *)
Theorem solution_unique_complete_grid order rnd b k fuel :
  is_filled b = true ->
  solution_unique (S (S fuel)) order rnd b k = Some (Ok true, k).
Proof.
  intros Hf. unfold solution_unique. cbn [solution_unique_loop].
  rewrite Hf. reflexivity.
Qed.

Lemma solution_unique_complete_grid_witness :
  solution_unique 2 ascending (fun _ => 0) all_ones 0 = Some (Ok true, 0).
Proof.
  apply (solution_unique_complete_grid ascending (fun _ => 0) all_ones 0 0).
  reflexivity.
Defined.

(** X13. [board_in_solutions] answers True exactly when one of the recorded
    grids equals the board cell for cell. *)
Theorem board_in_solutions_correct b solutions :
  (board_in_solutions b solutions = true <-> In b solutions)
  /\ (board_in_solutions b solutions = false <-> ~ In b solutions).
Proof.
  pose proof (board_in_solutions_spec b solutions) as H. split; [exact H|].
  destruct (board_in_solutions b solutions); split; intros H'.
  - discriminate.
  - exfalso. apply H'. apply H. reflexivity.
  - intros Hin. apply H in Hin. discriminate.
  - reflexivity.
Qed.

(** ** Starting boards *)

(** A group of a consistent grid all of whose cells are filled holds each
    digit once. *)
Lemma good_group_complete b g :
  good b -> In g all_groups ->
  (forall c, In c g -> get b (fst c) (snd c) <> 0%Z) ->
  forall v, In v COMPLETE_ROW -> count_occ Z.eq_dec (values b g) v = 1.
Proof.
  intros [Hb Hr Hc] Hg Hnz v Hv.
  destruct (group_facts g Hg) as (Hl & Hn & Hin & Hs).
  assert (List.NoDup (values b g)) as Hnd.
  { unfold values. apply NoDup_map_pairwise; [assumption|].
    intros [x y] [x' y'] Hc1 Hc2 Hne.
    pose proof (Hin _ Hc1) as [? ?]. pose proof (Hin _ Hc2) as [? ?].
    pose proof (Hnz _ Hc1). cbn [fst snd] in *. apply Hc; auto. }
  assert (incl (values b g) COMPLETE_ROW) as Hi.
  { intros w Hw. unfold values in Hw. apply in_map_iff in Hw.
    destruct Hw as ([x y] & E & Hxy). pose proof (Hin _ Hxy) as [Hx Hy].
    pose proof (Hnz _ Hxy) as H0.
    cbn [fst snd] in *. apply complete_row_spec.
    specialize (Hr x y Hx Hy). lia. }
  assert (incl COMPLETE_ROW (values b g)) as Hi'.
  { apply List.NoDup_length_incl; [assumption| |assumption].
    unfold values. rewrite List.length_map, Hl. reflexivity. }
  apply (proj1 (List.NoDup_count_occ' Z.eq_dec (values b g)) Hnd).
  apply Hi'. assumption.
Qed.

Lemma diagonal_cells_count :
  length (List.filter (fun c => diagonal (fst c) (snd c)) indices) = 27.
Proof. vm_compute. reflexivity. Qed.

(** X14. [starting_board] returns a consistent 9x9 grid with 27 filled
    cells: each of the blocks 0, 4 and 8 holds every digit of 1..9 once and
    all the other cells are empty. *)
Theorem starting_board_spec cells_order shuffled :
  (forall l, Permutation (cells_order l) l) ->
  (forall n, Permutation (shuffled n) arange_1_10) ->
  well_formed (starting_board cells_order shuffled)
  /\ consistent (starting_board cells_order shuffled) = true
  /\ count_nonzero (starting_board cells_order shuffled) = 27
  /\ (forall x y, x < BOARD_DIM -> y < BOARD_DIM -> diagonal x y = false ->
        get (starting_board cells_order shuffled) x y = 0%Z)
  /\ (forall n, In n [0; 4; 8] ->
      forall v, In v arange_1_10 ->
        count_occ Z.eq_dec
          (values (starting_board cells_order shuffled) (fst squares n)) v = 1).
Proof.
  intros Hc Hs. set (b := starting_board cells_order shuffled).
  pose proof (starting_board_good cells_order shuffled Hc Hs) as Hg.
  fold b in Hg. pose proof (good_well_formed b Hg) as Hb.
  assert (forall x y, x < BOARD_DIM -> y < BOARD_DIM -> diagonal x y = true ->
            get b x y <> 0%Z) as Hdiag.
  { intros x y Hx Hy Hd.
    pose proof (starting_board_diagonal cells_order shuffled Hc Hs x y Hx Hy Hd)
      as Hin.
    apply in_combine_r in Hin. apply (Permutation_in _ (Hs _)) in Hin.
    fold b in Hin. change arange_1_10 with COMPLETE_ROW in Hin.
    apply complete_row_spec in Hin. lia. }
  split; [assumption|]. split; [apply good_consistent; assumption|].
  split; [|split].
  - unfold count_nonzero. rewrite <- (values_indices b Hb) at 1.
    unfold values. rewrite filter_map_length.
    rewrite <- diagonal_cells_count. f_equal.
    apply filter_ext_in. intros [x y] Hin. apply in_indices in Hin.
    cbn [fst snd]. destruct (diagonal x y) eqn:Hd.
    + apply negb_true_iff, Z.eqb_neq. apply Hdiag; tauto.
    + unfold b. rewrite starting_board_off_diagonal by tauto. reflexivity.
  - intros x y Hx Hy Hd. apply starting_board_off_diagonal; assumption.
  - intros n Hn v Hv. change (fst squares n) with (block_cells n).
    assert (n < BOARD_DIM) as Hlt
        by (unfold BOARD_DIM; destruct Hn as [<-|[<-|[<-|[]]]]; lia).
    apply good_group_complete; try assumption.
    + unfold all_groups. apply in_or_app. right. apply in_or_app. right.
      apply in_map, in_seq. lia.
    + intros [x y] Hin. apply in_block_cells in Hin.
      destruct Hin as (Hx & Hy & E). cbn [fst snd]. apply Hdiag; try assumption.
      unfold diagonal. rewrite E.
      destruct Hn as [<-|[<-|[<-|[]]]]; reflexivity.
Qed.

Lemma arange_perm (n : nat) : Permutation ((fun _ => arange_1_10) n) arange_1_10.
Proof. apply Permutation_refl. Qed.

Lemma identity_perm (l : list (nat * nat)) : Permutation ((fun l => l) l) l.
Proof. apply Permutation_refl. Qed.

Lemma starting_board_spec_witness :
  well_formed (starting_board (fun l => l) (fun _ => arange_1_10))
  /\ consistent (starting_board (fun l => l) (fun _ => arange_1_10)) = true
  /\ count_nonzero (starting_board (fun l => l) (fun _ => arange_1_10)) = 27
  /\ (forall x y, x < BOARD_DIM -> y < BOARD_DIM -> diagonal x y = false ->
        get (starting_board (fun l => l) (fun _ => arange_1_10)) x y = 0%Z)
  /\ (forall n, In n [0; 4; 8] ->
      forall v, In v arange_1_10 ->
        count_occ Z.eq_dec
          (values (starting_board (fun l => l) (fun _ => arange_1_10))
                  (fst squares n)) v = 1).
Proof.
  apply (starting_board_spec (fun l => l) (fun _ => arange_1_10)).
  - exact identity_perm.
  - exact arange_perm.
Defined.

(** X15. The work of one solution job: on a board made by [starting_board]
    the loop of [backtrack_iter] stops, and if it returns a grid, the grid is
    complete and every row, column and block of it holds each digit once;
    otherwise the stack ran empty and [stack.pop()] raises IndexError. *)
Theorem backtrack_iter_on_starting_board order rnd cells_order shuffled :
  (forall l, Permutation (order l) l) ->
  (forall l, Permutation (cells_order l) l) ->
  (forall n, Permutation (shuffled n) arange_1_10) ->
  exists fuel r,
    backtrack_iter fuel order rnd (starting_board cells_order shuffled) = Some r
    /\ match r with
       | Ok b' => is_filled b' = true /\ valid_solution b'
       | Raise e => e = PopFromEmptyList
       end.
Proof.
  intros Ho Hc Hs.
  exists (S (10 ^ zeros (starting_board cells_order shuffled))).
  apply backtrack_iter_starting_board; try assumption. lia.
Qed.

Lemma backtrack_iter_on_starting_board_witness :
  exists fuel r,
    backtrack_iter fuel ascending (fun _ => 0)
      (starting_board (fun l => l) (fun _ => arange_1_10)) = Some r
    /\ match r with
       | Ok b' => is_filled b' = true /\ valid_solution b'
       | Raise e => e = PopFromEmptyList
       end.
Proof.
  apply (backtrack_iter_on_starting_board ascending (fun _ => 0)
           (fun l => l) (fun _ => arange_1_10)).
  - exact ascending_perm.
  - exact identity_perm.
  - exact arange_perm.
Defined.

(** ** Carving *)

Lemma create_puzzle_loop_extends s fuel order rnd positions :
  forall b k p k',
    Forall (fun position => position < BOARD_DIM * BOARD_DIM) positions ->
    well_formed b -> extends b s ->
    create_puzzle_loop fuel order rnd positions b k = Some (Ok p, k') ->
    well_formed p /\ extends p s.
Proof.
  induction positions as [|position positions IH];
    intros b k p k' Hps Hb He H.
  - injection H as <- <-. auto.
  - inversion Hps as [|? ? Hpos Hps']; subst.
    destruct (position_cell_lt position Hpos) as [Hx Hy].
    unfold position_cell in Hx, Hy. cbn [fst snd] in Hx, Hy.
    cbn [create_puzzle_loop] in H. cbv zeta in H.
    rewrite set_cell_restore in H by assumption.
    destruct (solution_unique fuel order rnd _ k) as [[[u|e] k1]|];
      [|discriminate..].
    destruct u; cbn [negb] in H.
    + apply (IH _ _ _ _ Hps') in H; try assumption.
      * apply set_cell_well_formed. assumption.
      * intros x y Hx' Hy'. rewrite get_set_cell by assumption.
        destruct (coord_eq_dec _ _); [congruence|]. apply He; assumption.
    + apply (IH _ _ _ _ Hps') in H; assumption.
Qed.

Lemma extends_count_nonzero p b :
  well_formed p -> well_formed b -> extends p b ->
  count_nonzero p <= count_nonzero b.
Proof.
  intros Hp Hb He.
  pose proof (count_nonzero_zero_indices p Hp) as Ep.
  pose proof (count_nonzero_zero_indices b Hb) as Eb.
  assert (length (zero_indices b) <= length (zero_indices p)) as Hle.
  { unfold zero_indices. apply filter_length_le_pointwise.
    intros [x y] Hin E. apply in_indices in Hin. cbn [fst snd] in *.
    apply Z.eqb_eq in E. apply Z.eqb_eq.
    destruct (Z.eq_dec (get p x y) 0%Z) as [E0|E0]; [assumption|].
    rewrite <- (He x y (proj1 Hin) (proj2 Hin) E0) in E0. contradiction. }
  lia.
Qed.

(** X16. [_create_puzzle] only clears cells: the board it returns has the
    shape of its argument, every filled cell of it holds the value the
    argument had there, and it has no more filled cells than the argument. *)
Theorem create_puzzle_only_clears fuel order rnd shuffled b k p k' :
  well_formed b ->
  Forall (fun position => position < BOARD_DIM * BOARD_DIM) shuffled ->
  _create_puzzle fuel order rnd shuffled b k = Some (Ok p, k') ->
  well_formed p /\ extends p b /\ count_nonzero p <= count_nonzero b.
Proof.
  intros Hb Hps H. unfold _create_puzzle in H.
  apply (create_puzzle_loop_extends b) in H; try assumption.
  - destruct H as [Hp He]. split; [assumption|]. split; [assumption|].
    apply extends_count_nonzero; assumption.
  - apply List.Forall_forall. intros position Hin. apply in_rev in Hin.
    rewrite List.Forall_forall in Hps. apply Hps. assumption.
  - intros x y _ _ _. reflexivity.
Qed.

Lemma positions_below : Forall (fun position => position < BOARD_DIM * BOARD_DIM)
                               (seq 0 81).
Proof. apply List.Forall_forall. intros p Hp. apply in_seq in Hp. exact (proj2 Hp). Qed.

Lemma create_puzzle_run :
  _create_puzzle 100 ascending (fun _ => 0) (seq 0 81) solved_grid 0
  = Some (Ok carved_puzzle, 301).
Proof. vm_compute. reflexivity. Qed.

Lemma create_puzzle_only_clears_witness :
  well_formed carved_puzzle /\ extends carved_puzzle solved_grid
  /\ count_nonzero carved_puzzle <= count_nonzero solved_grid.
Proof.
  apply (create_puzzle_only_clears 100 ascending (fun _ => 0) (seq 0 81)
           solved_grid 0 carved_puzzle 301).
  - reflexivity.
  - exact positions_below.
  - exact create_puzzle_run.
Defined.

(** X17. On a valid solution the first cell that [_create_puzzle] visits,
    the one of the last position of the shuffled list, is always cleared and
    stays so: the puzzle returned has an empty cell there and fewer filled
    cells than the solution. *)
Theorem create_puzzle_first_cell fuel order rnd init position b k p k' :
  (forall l, Permutation (order l) l) ->
  well_formed b -> valid_solution b ->
  Forall (fun position => position < BOARD_DIM * BOARD_DIM)
         (init ++ [position]) ->
  3 <= fuel ->
  _create_puzzle fuel order rnd (init ++ [position]) b k = Some (Ok p, k') ->
  get p (position mod BOARD_DIM) (position / BOARD_DIM) = 0%Z
  /\ count_nonzero p < count_nonzero b.
Proof.
  intros Ho Hb Hv Hps Hfuel H. unfold _create_puzzle in H.
  rewrite rev_unit in H.
  assert (position < BOARD_DIM * BOARD_DIM) as Hpos.
  { rewrite List.Forall_forall in Hps. apply Hps, in_or_app. right. left.
    reflexivity. }
  assert (Forall (fun position => position < BOARD_DIM * BOARD_DIM) (rev init))
    as Hps'.
  { apply List.Forall_forall. intros q Hin. apply in_rev in Hin.
    rewrite List.Forall_forall in Hps. apply Hps, in_or_app. left. assumption. }
  destruct (position_cell_lt position Hpos) as [Hx Hy].
  unfold position_cell in Hx, Hy. cbn [fst snd] in Hx, Hy.
  cbn [create_puzzle_loop] in H. cbv zeta in H.
  destruct fuel as [|[|[|fuel]]]; [lia..|].
  rewrite (solution_unique_one_cleared order Ho rnd) in H by assumption.
  cbn [negb] in H.
  apply (create_puzzle_loop_clears order rnd b (position mod BOARD_DIM)
           (position / BOARD_DIM)) in H; try assumption.
  - destruct H as (Hp & H0 & He). split; [assumption|].
    pose proof (count_nonzero_zero_indices p Hp) as Ep.
    pose proof (count_nonzero_zero_indices b Hb) as Eb.
    rewrite (proj1 (is_filled_zero_indices b Hb)
               (valid_solution_filled b Hb Hv)) in Eb.
    assert (In (position mod BOARD_DIM, position / BOARD_DIM)
               (zero_indices p)) as Hin by (apply in_zero_indices; auto).
    destruct (zero_indices p); [destruct Hin|]. simpl in *. lia.
  - apply set_cell_well_formed. assumption.
  - apply get_set_cell_eq; assumption.
  - intros x y Hx' Hy'. rewrite get_set_cell by assumption.
    destruct (coord_eq_dec _ _); [congruence|auto].
Qed.

Lemma create_puzzle_first_cell_witness :
  get carved_puzzle (80 mod BOARD_DIM) (80 / BOARD_DIM) = 0%Z
  /\ count_nonzero carved_puzzle < count_nonzero solved_grid.
Proof.
  apply (create_puzzle_first_cell 100 ascending (fun _ => 0) (seq 0 80) 80
           solved_grid 0 carved_puzzle 301).
  - exact ascending_perm.
  - reflexivity.
  - exact solved_grid_valid.
  - exact positions_below.
  - lia.
  - exact create_puzzle_run.
Defined.

Lemma zeros_le b : zeros b <= BOARD_DIM * BOARD_DIM.
Proof.
  unfold zeros, zero_indices.
  etransitivity; [apply filter_length_le|]. reflexivity.
Qed.

(** With enough fuel for every 9x9 board, [solution_unique] answers. *)
Lemma solution_unique_total fuel order rnd b k :
  (forall l, Permutation (order l) l) ->
  (forall a, well_formed a -> 10 ^ zeros a < fuel) ->
  well_formed b ->
  exists r k', solution_unique fuel order rnd b k = Some (Ok r, k').
Proof.
  intros Ho Hfuel Hb.
  destruct (filled_frames_terminates order Ho rnd fuel [b] k) as (frames & E).
  - constructor; [assumption|constructor].
  - rewrite weight_cons. change (weight []) with 0.
    pose proof (Hfuel b Hb). lia.
  - destruct (solution_unique_loop_frames order rnd fuel [b] [] k frames)
      as (r & k' & Hr & _); [constructor|simpl; lia|assumption|].
    exists r, k'. exact Hr.
Qed.

Lemma create_puzzle_loop_total fuel order rnd positions :
  (forall l, Permutation (order l) l) ->
  (forall a, well_formed a -> 10 ^ zeros a < fuel) ->
  forall b k,
    Forall (fun position => position < BOARD_DIM * BOARD_DIM) positions ->
    well_formed b ->
    exists p k', create_puzzle_loop fuel order rnd positions b k
                 = Some (Ok p, k').
Proof.
  intros Ho Hfuel.
  induction positions as [|position positions IH]; intros b k Hps Hb.
  - exists b, k. reflexivity.
  - inversion Hps as [|? ? Hpos Hps']; subst.
    cbn [create_puzzle_loop]. cbv zeta.
    assert (well_formed (set_cell b (position mod BOARD_DIM)
                           (position / BOARD_DIM) 0%Z)) as Hb1
        by (apply set_cell_well_formed; assumption).
    destruct (solution_unique_total fuel order rnd _ k Ho Hfuel Hb1)
      as (r & k1 & E).
    rewrite E. apply IH; [assumption|].
    destruct (negb r); [apply set_cell_well_formed|]; assumption.
Qed.

(** X18. [_create_puzzle] always comes to an end without an exception: on
    every 9x9 board, whatever the shuffle of the positions 0..80, the random
    draws and the iteration order are, it returns a board. *)
Theorem create_puzzle_terminates order rnd shuffled b k :
  (forall l, Permutation (order l) l) ->
  well_formed b ->
  Forall (fun position => position < BOARD_DIM * BOARD_DIM) shuffled ->
  exists fuel p k',
    _create_puzzle fuel order rnd shuffled b k = Some (Ok p, k').
Proof.
  intros Ho Hb Hps. exists (S (10 ^ (BOARD_DIM * BOARD_DIM))).
  unfold _create_puzzle. apply create_puzzle_loop_total; try assumption.
  - intros a Ha. apply Nat.lt_succ_r, Nat.pow_le_mono_r; [discriminate|].
    apply zeros_le.
  - apply List.Forall_forall. intros position Hin. apply in_rev in Hin.
    rewrite List.Forall_forall in Hps. apply Hps. assumption.
Qed.

Lemma create_puzzle_terminates_witness :
  exists fuel p k',
    _create_puzzle fuel ascending (fun _ => 0) (seq 0 81) solved_grid 0
    = Some (Ok p, k').
Proof.
  apply (create_puzzle_terminates ascending (fun _ => 0) (seq 0 81)
           solved_grid 0).
  - exact ascending_perm.
  - reflexivity.
  - exact positions_below.
Defined.

(** ** The persistence stage *)

Lemma stored_pairs_flush bs ps n :
  stored_pairs ([insert_solutions bs; insert_puzzles ps] ++ repeat task_done n)
  = ps.
Proof.
  unfold stored_pairs. cbn [app flat_map]. rewrite <- (app_nil_r ps) at 2.
  f_equal. induction n as [|n IH]; [reflexivity|exact IH].
Qed.

Lemma stored_solutions_flush bs ps n :
  stored_solutions
    ([insert_solutions bs; insert_puzzles ps] ++ repeat task_done n) = bs.
Proof.
  unfold stored_solutions. cbn [app flat_map]. rewrite <- (app_nil_r bs) at 2.
  f_equal. induction n as [|n IH]; [reflexivity|exact IH].
Qed.

Lemma done_count_flush bs ps n :
  done_count ([insert_solutions bs; insert_puzzles ps] ++ repeat task_done n)
  = n.
Proof.
  unfold done_count. cbn [app List.filter].
  induction n as [|n IH]; [reflexivity|]. cbn [repeat List.filter length].
  rewrite IH. reflexivity.
Qed.

Lemma stored_pairs_app a b :
  stored_pairs (a ++ b) = stored_pairs a ++ stored_pairs b.
Proof. apply flat_map_app. Qed.

Lemma stored_solutions_app a b :
  stored_solutions (a ++ b) = stored_solutions a ++ stored_solutions b.
Proof. apply flat_map_app. Qed.

Lemma done_count_app a b : done_count (a ++ b) = done_count a + done_count b.
Proof. unfold done_count. rewrite List.filter_app, length_app. reflexivity. Qed.

Lemma combine_puzzles_boards (l : list job) :
  combine (map (fun j : job => fst (fst j)) l)
          (map (fun j : job => snd (fst j)) l)
  = map puzzle_and_solution l.
Proof.
  induction l as [|j l IH]; [reflexivity|]. cbn [map combine].
  rewrite IH. reflexivity.
Qed.

Lemma boards_of_pairs (l : list job) :
  map (fun j : job => snd (fst j)) l = map snd (map puzzle_and_solution l).
Proof. rewrite map_map. reflexivity. Qed.

(** With a batch size of at least one an iteration keeps the invariant. *)
Lemma to_db_iteration_invariant batch polled st taken :
  0 < batch -> to_db_invariant batch st taken ->
  exists st',
    to_db_iteration batch polled st = Continue st'
    /\ to_db_invariant batch st' (taken ++ received [polled]).
Proof.
  intros Hbatch (Hs & Hst & Hsol & [q Hq] & Hlen & Hdone).
  destruct st as [rs sn cs]. cbn [results sentinel calls] in *. subst sn.
  unfold to_db_iteration. cbn [results sentinel calls].
  rewrite andb_false_r, orb_false_r.
  destruct polled as [j|].
  - cbn [received flat_map]. rewrite app_nil_r.
    destruct (batch <=? length (rs ++ [j])) eqn:Hb.
    + apply Nat.leb_le in Hb.
      assert (length (rs ++ [j]) = batch) as Hfull
          by (rewrite length_app in *; simpl in *; lia).
      destruct (rs ++ [j]) as [|a l] eqn:E;
        [destruct rs; discriminate E|].
      rewrite <- E in *. eexists. split; [reflexivity|].
      unfold to_db_invariant. cbn [results sentinel calls].
      rewrite stored_pairs_app, stored_solutions_app, done_count_app.
      rewrite stored_pairs_flush, stored_solutions_flush, done_count_flush.
      rewrite combine_puzzles_boards.
      split; [reflexivity|]. split.
      { cbn [map]. rewrite app_nil_r, !map_app, app_assoc, Hst. reflexivity. }
      split.
      { rewrite Hsol, boards_of_pairs, <- map_app. reflexivity. }
      split.
      { exists (S q). rewrite length_app, List.length_map, Hq, Hfull. lia. }
      split; [simpl; lia|].
      rewrite (length_app (stored_pairs cs)), List.length_map, Hdone.
      reflexivity.
    + apply Nat.leb_gt in Hb. eexists. split; [reflexivity|].
      unfold to_db_invariant. cbn [results sentinel calls].
      split; [reflexivity|]. split.
      { rewrite !map_app, app_assoc, Hst. reflexivity. }
      split; [assumption|]. split; [exists q; assumption|].
      split; assumption.
  - cbn [received flat_map]. rewrite app_nil_r.
    destruct (batch <=? length rs) eqn:Hb;
      [apply Nat.leb_le in Hb; lia|].
    eexists. split; [reflexivity|].
    unfold to_db_invariant. cbn [results sentinel calls].
    split; [reflexivity|]. split; [assumption|]. split; [assumption|].
    split; [exists q; assumption|]. split; assumption.
Qed.

Lemma received_cons polled polls :
  received (polled :: polls) = received [polled] ++ received polls.
Proof. unfold received. cbn [flat_map]. rewrite app_nil_r. reflexivity. Qed.

Lemma to_db_run_invariant batch polls :
  0 < batch ->
  forall st taken,
    to_db_invariant batch st taken ->
    exists st',
      to_db batch polls st = Continue st'
      /\ to_db_invariant batch st' (taken ++ received polls).
Proof.
  intros Hbatch. induction polls as [|polled polls IH]; intros st taken Hinv.
  - exists st. split; [reflexivity|]. cbn [received flat_map].
    rewrite app_nil_r. assumption.
  - destruct (to_db_iteration_invariant batch polled st taken Hbatch Hinv)
      as (st1 & E1 & Hinv1).
    cbn [to_db]. rewrite E1.
    destruct (IH st1 _ Hinv1) as (st' & E & Hinv').
    exists st'. split; [assumption|].
    rewrite received_cons, app_assoc. assumption.
Qed.

Lemma to_db_start_invariant batch :
  0 < batch -> to_db_invariant batch to_db_start [].
Proof.
  intros Hbatch. unfold to_db_invariant, to_db_start.
  cbn [results sentinel calls]. repeat split; try reflexivity; try assumption.
  exists 0. simpl. lia.
Qed.

(** X19. [to_db] stores whole batches only.  With a batch size of at least
    one it neither raises nor leaves its loop; after any number of
    iterations the pairs passed to [insert_puzzles], followed by the jobs
    still held in [results], are the jobs taken from the queue, in order;
    [insert_solutions] got the solutions of the same pairs; the number of
    stored pairs is the largest multiple of the batch size not above the
    number of jobs taken, and [task_done] was called once per stored pair.
    The jobs beyond the last full batch are never stored. *)
Theorem to_db_whole_batches batch polls :
  0 < batch ->
  exists st,
    to_db batch polls to_db_start = Continue st
    /\ stored_pairs (calls st) ++ map puzzle_and_solution (results st)
       = map puzzle_and_solution (received polls)
    /\ stored_solutions (calls st) = map snd (stored_pairs (calls st))
    /\ length (stored_pairs (calls st))
       = batch * (length (received polls) / batch)
    /\ length (results st) = length (received polls) mod batch
    /\ done_count (calls st) = length (stored_pairs (calls st)).
Proof.
  intros Hbatch.
  destruct (to_db_run_invariant batch polls Hbatch to_db_start []
              (to_db_start_invariant batch Hbatch))
    as (st & E & _ & Hst & Hsol & [q Hq] & Hlen & Hdone).
  exists st. cbn [app] in Hst.
  assert (length (received polls)
          = batch * q + length (results st)) as Hn.
  { rewrite <- Hq.
    rewrite <- (List.length_map puzzle_and_solution (received polls)), <- Hst.
    rewrite length_app, List.length_map. reflexivity. }
  pose proof (Nat.div_unique _ _ _ _ Hlen Hn) as Hdiv.
  pose proof (Nat.mod_unique _ _ _ _ Hlen Hn) as Hmod.
  repeat split; try assumption.
  rewrite Hq, Hdiv. reflexivity.
Qed.

Lemma to_db_whole_batches_witness :
  exists st,
    to_db 2 [Some (carved_puzzle, solved_grid, 0); None;
             Some (two_cleared, solved_grid, 1);
             Some (stuck_grid, resolved_grid, 2)] to_db_start = Continue st
    /\ stored_pairs (calls st) ++ map puzzle_and_solution (results st)
       = map puzzle_and_solution
           (received [Some (carved_puzzle, solved_grid, 0); None;
                      Some (two_cleared, solved_grid, 1);
                      Some (stuck_grid, resolved_grid, 2)])
    /\ stored_solutions (calls st) = map snd (stored_pairs (calls st))
    /\ length (stored_pairs (calls st))
       = 2 * (length (received [Some (carved_puzzle, solved_grid, 0); None;
                                Some (two_cleared, solved_grid, 1);
                                Some (stuck_grid, resolved_grid, 2)]) / 2)
    /\ length (results st)
       = length (received [Some (carved_puzzle, solved_grid, 0); None;
                           Some (two_cleared, solved_grid, 1);
                           Some (stuck_grid, resolved_grid, 2)]) mod 2
    /\ done_count (calls st) = length (stored_pairs (calls st)).
Proof. apply (to_db_whole_batches 2). lia. Defined.



(** X21. With a batch size of 0 [to_db] stores every job on its own and
    raises ValueError at the first iteration that finds the queue empty. *)
Theorem to_db_zero_batch jobs polls :
  exists st,
    to_db 0 (map Some jobs ++ None :: polls) to_db_start = RaiseValueError st
    /\ results st = []
    /\ stored_pairs (calls st) = map puzzle_and_solution jobs
    /\ done_count (calls st) = length jobs.
Proof.
  assert (forall cs,
            exists st,
              to_db 0 (map Some jobs ++ None :: polls)
                {| results := []; sentinel := Some true; calls := cs |}
              = RaiseValueError st
              /\ results st = []
              /\ stored_pairs (calls st)
                 = stored_pairs cs ++ map puzzle_and_solution jobs
              /\ done_count (calls st) = done_count cs + length jobs) as H.
  { induction jobs as [|j jobs IH]; intros cs.
    - eexists. split; [reflexivity|]. cbn [results calls map length].
      rewrite app_nil_r, Nat.add_0_r. auto.
    - cbn [map app to_db]. unfold to_db_iteration.
      cbn [results sentinel calls app length Nat.eqb Nat.leb andb orb map
           combine].
      destruct (IH (cs ++ [insert_solutions [snd (fst j)];
                           insert_puzzles [(fst (fst j), snd (fst j))]]
                       ++ repeat task_done 1))
        as (st & E & Hr & Hst & Hd).
      exists st. split; [exact E|]. split; [assumption|].
      rewrite stored_pairs_app, stored_pairs_flush in Hst.
      rewrite done_count_app, done_count_flush in Hd.
      split.
      + rewrite Hst, <- app_assoc. reflexivity.
      + rewrite Hd. cbn [length]. lia. }
  destruct (H []) as (st & E & Hr & Hst & Hd). exists st. auto.
Qed.



(** X23. When [main] is asked for a number of jobs between 1 and half the
    queue capacity, the capacity being at most [2 ^ 53], the batch size is
    that number and [to_db] stores all jobs in one batch: once that many
    jobs have been taken from the queue, every one is passed to
    [insert_puzzles] and marked done, and [results] is empty. *)
Theorem to_db_stores_all_jobs n queue_size polls :
  0 < n -> n <= queue_size / 2 -> (N.of_nat queue_size <= 2 ^ 53)%N ->
  length (received polls) = n ->
  db_batch_size (Some n) queue_size = Some n
  /\ exists st,
       to_db n polls to_db_start = Continue st
       /\ results st = []
       /\ stored_pairs (calls st) = map puzzle_and_solution (received polls)
       /\ stored_solutions (calls st)
          = map snd (map puzzle_and_solution (received polls))
       /\ done_count (calls st) = n.
Proof.
  intros Hn Hq Hcap Hlen. split.
  { rewrite (db_batch_size_exact _ _ Hcap). destruct n as [|n]; [inversion Hn|].
    f_equal. apply Nat.min_r. assumption. }
  destruct (to_db_run_invariant n polls Hn to_db_start []
              (to_db_start_invariant n Hn))
    as (st & E & _ & Hst & Hsol & [q Hq'] & Hlt & Hdone).
  exists st. cbn [app] in Hst.
  assert (length (received polls) = n * q + length (results st)) as Hsum.
  { rewrite <- Hq'.
    rewrite <- (List.length_map puzzle_and_solution (received polls)), <- Hst.
    rewrite length_app, List.length_map. reflexivity. }
  assert (q = 1 /\ length (results st) = 0) as [-> Hr].
  { rewrite Hlen in Hsum. destruct q as [|[|q]].
    - lia.
    - lia.
    - rewrite !Nat.mul_succ_r in Hsum. lia. }
  apply length_zero_iff_nil in Hr. rewrite Hr in Hst. cbn [map] in Hst.
  rewrite app_nil_r in Hst.
  split; [assumption|]. split; [assumption|]. split; [assumption|].
  split; [rewrite Hsol, Hst; reflexivity|].
  rewrite Hdone, Hq'. lia.
Qed.

Lemma to_db_stores_all_jobs_witness :
  db_batch_size (Some 2) 10 = Some 2
  /\ exists st,
       to_db 2
         [Some (carved_puzzle, solved_grid, 0); None;
          Some (two_cleared, solved_grid, 1)] to_db_start = Continue st
       /\ results st = []
       /\ stored_pairs (calls st)
          = map puzzle_and_solution
              (received [Some (carved_puzzle, solved_grid, 0); None;
                         Some (two_cleared, solved_grid, 1)])
       /\ stored_solutions (calls st)
          = map snd (map puzzle_and_solution
                       (received [Some (carved_puzzle, solved_grid, 0); None;
                                  Some (two_cleared, solved_grid, 1)]))
       /\ done_count (calls st) = 2.
Proof.
  apply (to_db_stores_all_jobs 2 10).
  - lia.
  - vm_compute. lia.
  - vm_compute. discriminate.
  - reflexivity.
Defined.
